(** * aiorwlock: the reader-writer lock core, its handles and its invariants

    A shallow embedding of [aiorwlock/__init__.py].  The core object
    [_RWLockCore] keeps a signed hold counter [_state], a counter of
    writers inside [acquire_write] ([_waiting]), the list of holding tasks
    [_owning] and one [asyncio.Condition] on which coroutines park.

    Coroutines run on a single cooperative event loop, so a coroutine is
    modelled by its atomic segments: the segment from the call up to the
    first suspension (or up to its return), and the segment that runs when a
    parked coroutine is resumed by the condition.  The condition's own lock
    is free at every suspension point ([Condition.wait] releases it, and no
    [with] block suspends anywhere else), so entering a [with] block never
    suspends and is not a segment boundary. *)

From Stdlib Require Import String ZArith List Bool Lia Permutation PeanoNat.
Import ListNotations.
Local Open Scope Z_scope.

(** ** Data *)

(** The identity returned by [asyncio.Task.current_task]. *)
Definition Task := nat.
Bind Scope nat_scope with Task.

Inductive exn : Type :=
| RuntimeError (msg : string).

Definition UpgradeForbidden : exn :=
  RuntimeError "cannot upgrade RWLock from read to write".
Definition NotHeld : exn :=
  RuntimeError "cannot release an un-acquired lock".

(** Which predicate a parked coroutine handed to [Condition.wait_for]:
    [_acquire_read] (from [acquire_read]) or [_acquire_write] (from
    [acquire_write]). *)
Inductive kind : Type := Reader | Writer.

(** One entry of the condition's waiter queue: the parked task, its
    predicate, and whether [notify_all] has already completed its future. *)
Record waiter : Type := mkWaiter {
  w_task : Task;
  w_kind : kind;
  w_notified : bool
}.

Record _RWLockCore : Type := mkCore {
  _cond : list waiter;
  _state : Z;          (* positive is shared count, negative exclusive count *)
  _waiting : Z;
  _owning : list Task
}.

(** [_RWLockCore.__init__] *)
Definition __init__ : _RWLockCore :=
  {| _cond := []; _state := 0; _waiting := 0; _owning := [] |}.

Definition set_state (z : Z) (c : _RWLockCore) : _RWLockCore :=
  {| _cond := _cond c; _state := z; _waiting := _waiting c; _owning := _owning c |}.
Definition set_waiting (z : Z) (c : _RWLockCore) : _RWLockCore :=
  {| _cond := _cond c; _state := _state c; _waiting := z; _owning := _owning c |}.
Definition set_owning (l : list Task) (c : _RWLockCore) : _RWLockCore :=
  {| _cond := _cond c; _state := _state c; _waiting := _waiting c; _owning := l |}.
Definition set_cond (q : list waiter) (c : _RWLockCore) : _RWLockCore :=
  {| _cond := q; _state := _state c; _waiting := _waiting c; _owning := _owning c |}.

(** Python's [me in self._owning]. *)
Definition mem (me : Task) (l : list Task) : bool :=
  existsb (Nat.eqb me) l.

(** Python's [list.remove]: drops the first entry equal to [x]; [None]
    stands for the [ValueError] raised when there is none. *)
Fixpoint list_remove (x : Task) (l : list Task) : option (list Task) :=
  match l with
  | [] => None
  | y :: l' =>
      if Nat.eqb y x then Some l'
      else match list_remove x l' with
           | Some r => Some (y :: r)
           | None => None
           end
  end.

(** ** The two predicates *)

Inductive result (A : Type) : Type :=
| Return (a : A)
| Raise (e : exn).
Arguments Return {A} a.
Arguments Raise {A} e.

Definition _acquire_write (me : Task) (c : _RWLockCore) : result bool * _RWLockCore :=
  if (_state c =? 0) || ((_state c <? 0) && mem me (_owning c)) then
    (Return true, set_owning (_owning c ++ [me]) (set_state (_state c - 1) c))
  else if (0 <? _state c) && mem me (_owning c) then
    (Raise UpgradeForbidden, c)
  else
    (Return false, c).

Definition _acquire_read (me : Task) (c : _RWLockCore) : result bool * _RWLockCore :=
  if _state c <? 0 then
    _acquire_write me c
  else
    let ok := if _waiting c =? 0 then true else mem me (_owning c) in
    if ok then
      (Return true, set_owning (_owning c ++ [me]) (set_state (_state c + 1) c))
    else
      (Return false, c).

Definition predicate (k : kind) : Task -> _RWLockCore -> result bool * _RWLockCore :=
  match k with
  | Reader => _acquire_read
  | Writer => _acquire_write
  end.

(** ** The coroutines, segment by segment *)

(** How an atomic segment of a coroutine ends. *)
Inductive outcome : Type :=
| Acquired           (* the acquire returned *)
| Parked             (* the coroutine is suspended inside [wait_for] *)
| Raised (e : exn)   (* the call raised *)
| Released           (* [release] returned *)
| Cancelled.         (* a parked coroutine was cancelled by the loop *)

(** [Condition.wait]: a fresh future is queued for the calling task. *)
Definition park (k : kind) (me : Task) (c : _RWLockCore) : _RWLockCore :=
  set_cond (_cond c ++ [mkWaiter me k false]) c.

(** [Condition.notify_all]: every queued future is completed. *)
Definition notify_all (q : list waiter) : list waiter :=
  map (fun w => mkWaiter (w_task w) (w_kind w) true) q.

(** One round of [Condition.wait_for]: evaluate the predicate; a true value
    returns, a false one suspends, an exception propagates. *)
Definition wait_for (k : kind) (me : Task) (c : _RWLockCore) : outcome * _RWLockCore :=
  match predicate k me c with
  | (Return true, c') => (Acquired, c')
  | (Return false, c') => (Parked, park k me c')
  | (Raise e, c') => (Raised e, c')
  end.

(** The [finally] clause of [acquire_write] runs unless the coroutine is
    still suspended inside the [try]. *)
Definition finally_waiting (r : outcome * _RWLockCore) : outcome * _RWLockCore :=
  match r with
  | (Parked, c) => (Parked, c)
  | (o, c) => (o, set_waiting (_waiting c - 1) c)
  end.

Definition acquire_read (me : Task) (c : _RWLockCore) : outcome * _RWLockCore :=
  wait_for Reader me c.

Definition acquire_write (me : Task) (c : _RWLockCore) : outcome * _RWLockCore :=
  finally_waiting (wait_for Writer me (set_waiting (_waiting c + 1) c)).

Definition release (me : Task) (c : _RWLockCore) : outcome * _RWLockCore :=
  match list_remove me (_owning c) with
  | None => (Raised NotHeld, c)
  | Some l =>
      let c1 := set_owning l c in
      let c2 := if 0 <? _state c1 then set_state (_state c1 - 1) c1
                else set_state (_state c1 + 1) c1 in
      if _state c2 =? 0 then (Released, set_cond (notify_all (_cond c2)) c2)
      else (Released, c2)
  end.

(** The queue entry of a parked task, and the queue without it. *)
Fixpoint find_waiter (t : Task) (q : list waiter) : option waiter :=
  match q with
  | [] => None
  | w :: q' => if Nat.eqb (w_task w) t then Some w else find_waiter t q'
  end.

Fixpoint drop_waiter (t : Task) (q : list waiter) : list waiter :=
  match q with
  | [] => []
  | w :: q' => if Nat.eqb (w_task w) t then q' else w :: drop_waiter t q'
  end.

(** A woken coroutine leaves the queue and runs the next round of its
    [wait_for] loop. *)
Definition resume (w : waiter) (c : _RWLockCore) : outcome * _RWLockCore :=
  let c1 := set_cond (drop_waiter (w_task w) (_cond c)) c in
  match w_kind w with
  | Reader => wait_for Reader (w_task w) c1
  | Writer => finally_waiting (wait_for Writer (w_task w) c1)
  end.

(** A cancelled coroutine leaves the queue; the writer's [finally] runs. *)
Definition cancel (w : waiter) (c : _RWLockCore) : outcome * _RWLockCore :=
  let c1 := set_cond (drop_waiter (w_task w) (_cond c)) c in
  match w_kind w with
  | Reader => (Cancelled, c1)
  | Writer => (Cancelled, set_waiting (_waiting c1 - 1) c1)
  end.

(** ** The event loop's view *)

Inductive event : Type :=
| AcquireShared (t : Task)
| AcquireExclusive (t : Task)
| Release (t : Task)
| Resume (t : Task)
| Cancel (t : Task).

Definition is_parked (t : Task) (c : _RWLockCore) : bool :=
  match find_waiter t (_cond c) with
  | Some _ => true
  | None => false
  end.

(** A running task may call the three operations; a parked one may only be
    resumed (once notified) or cancelled.  [None]: the event cannot happen. *)
Definition step (e : event) (c : _RWLockCore) : option (outcome * _RWLockCore) :=
  match e with
  | AcquireShared t => if is_parked t c then None else Some (acquire_read t c)
  | AcquireExclusive t => if is_parked t c then None else Some (acquire_write t c)
  | Release t => if is_parked t c then None else Some (release t c)
  | Resume t =>
      match find_waiter t (_cond c) with
      | Some w => if w_notified w then Some (resume w c) else None
      | None => None
      end
  | Cancel t =>
      match find_waiter t (_cond c) with
      | Some w => Some (cancel w c)
      | None => None
      end
  end.

Fixpoint run (es : list event) (c : _RWLockCore) : option _RWLockCore :=
  match es with
  | [] => Some c
  | e :: es' =>
      match step e c with
      | Some (_, c') => run es' c'
      | None => None
      end
  end.

Inductive reachable : _RWLockCore -> Prop :=
| reach_init : reachable __init__
| reach_step c e o c' :
    reachable c -> step e c = Some (o, c') -> reachable c'.

(** ** The handles *)

Inductive handle : Type := reader_lock | writer_lock.

(** The composite: one core shared by both handles, and each handle's
    [_locked] flag. *)
Record RWLock : Type := mkRWLock {
  core : _RWLockCore;
  reader_locked : bool;
  writer_locked : bool
}.

Definition RWLock_init : RWLock :=
  {| core := __init__; reader_locked := false; writer_locked := false |}.

Definition set_locked (h : handle) (b : bool) (rw : RWLock) (c : _RWLockCore) : RWLock :=
  match h with
  | reader_lock => {| core := c; reader_locked := b; writer_locked := writer_locked rw |}
  | writer_lock => {| core := c; reader_locked := reader_locked rw; writer_locked := b |}
  end.

(** [_ReaderLock.release], inherited unchanged by [_WriterLock]: forward to
    the core, then clear this handle's flag (skipped when the core raised). *)
Definition handle_release (h : handle) (me : Task) (rw : RWLock) : outcome * RWLock :=
  match release me (core rw) with
  | (Released, c) => (Released, set_locked h false rw c)
  | (o, c) => (o, {| core := c; reader_locked := reader_locked rw;
                     writer_locked := writer_locked rw |})
  end.

(** [_ReaderLock.acquire] and [_WriterLock.acquire]: forward to the core
    coroutine of the handle's mode; the flag is set once that coroutine has
    returned, so neither a suspended nor a raising call touches it. *)
Definition core_acquire (h : handle) : Task -> _RWLockCore -> outcome * _RWLockCore :=
  match h with
  | reader_lock => acquire_read
  | writer_lock => acquire_write
  end.

Definition handle_acquire (h : handle) (me : Task) (rw : RWLock) : outcome * RWLock :=
  match core_acquire h me (core rw) with
  | (Acquired, c) => (Acquired, set_locked h true rw c)
  | (o, c) => (o, {| core := c; reader_locked := reader_locked rw;
                     writer_locked := writer_locked rw |})
  end.

(** The handle whose [acquire] runs the core coroutine of a given mode, and
    the rest of a handle's [acquire] when the core coroutine it was suspended
    in is resumed: the flag is set if the core acquire now returns. *)
Definition handle_of (k : kind) : handle :=
  match k with
  | Reader => reader_lock
  | Writer => writer_lock
  end.

Definition handle_resume (w : waiter) (rw : RWLock) : outcome * RWLock :=
  match resume w (core rw) with
  | (Acquired, c) => (Acquired, set_locked (handle_of (w_kind w)) true rw c)
  | (o, c) => (o, {| core := c; reader_locked := reader_locked rw;
                     writer_locked := writer_locked rw |})
  end.

(** A handle's [_locked] attribute, and the other handle of the composite. *)
Definition locked (h : handle) (rw : RWLock) : bool :=
  match h with
  | reader_lock => reader_locked rw
  | writer_lock => writer_locked rw
  end.

Definition other (h : handle) : handle :=
  match h with
  | reader_lock => writer_lock
  | writer_lock => reader_lock
  end.

(** [__repr__] of the two handles and of the composite. *)
Definition status (locked : bool) : string :=
  if locked then "locked" else "unlocked".

Definition ReaderLock_repr (locked : bool) : string :=
  "<ReaderLock: [" ++ status locked ++ "]>".

Definition WriterLock_repr (locked : bool) : string :=
  "<WriterLock: [" ++ status locked ++ "]>".

Definition RWLock_repr (rw : RWLock) : string :=
  "<RWLock: " ++ ReaderLock_repr (reader_locked rw) ++ " "
              ++ WriterLock_repr (writer_locked rw) ++ ">".

(** ** Bookkeeping read off a core *)

(** The number of holds of task [t]: its entries in [_owning]. *)
Definition holds (t : Task) (c : _RWLockCore) : nat :=
  count_occ Nat.eq_dec (_owning c) t.

(** The number of queued coroutines that are inside [acquire_write]. *)
Fixpoint writers (q : list waiter) : nat :=
  match q with
  | [] => 0%nat
  | w :: q' =>
      match w_kind w with
      | Writer => S (writers q')
      | Reader => writers q'
      end
  end.

(** The task an event belongs to, and the mode of the coroutine that an
    acquiring event runs. *)
Definition event_task (e : event) : Task :=
  match e with
  | AcquireShared t | AcquireExclusive t | Release t | Resume t | Cancel t => t
  end.

Definition event_kind (e : event) (c : _RWLockCore) : option kind :=
  match e with
  | AcquireShared _ => Some Reader
  | AcquireExclusive _ => Some Writer
  | Resume t =>
      match find_waiter t (_cond c) with
      | Some w => Some (w_kind w)
      | None => None
      end
  | _ => None
  end.

Definition is_cancel (e : event) : bool :=
  match e with
  | Cancel _ => true
  | _ => false
  end.

(** The cores reached when no parked coroutine is ever cancelled. *)
Inductive reachable_uncancelled : _RWLockCore -> Prop :=
| reach_nc_init : reachable_uncancelled __init__
| reach_nc_step c e o c' :
    reachable_uncancelled c -> is_cancel e = false ->
    step e c = Some (o, c') -> reachable_uncancelled c'.

(** ** The invariant kept by every step

    The counter's magnitude is the number of holds; a negative counter has
    one owning task; a parked task holds nothing; a task is queued at most
    once. *)

Record Inv (c : _RWLockCore) : Prop := mkInv {
  inv_count : Z.abs (_state c) = Z.of_nat (length (_owning c));
  inv_excl : _state c < 0 ->
             forall a b, In a (_owning c) -> In b (_owning c) -> a = b;
  inv_parked : forall t, In t (map w_task (_cond c)) -> ~ In t (_owning c);
  inv_queue : NoDup (map w_task (_cond c))
}.

(** ** Lists: membership, removal, the waiter queue *)

Lemma mem_In (x : Task) (l : list Task) : mem x l = true <-> In x l.
Proof.
  unfold mem. rewrite existsb_exists. split.
  - intros [y [Hy E]]. apply Nat.eqb_eq in E. now subst.
  - intros H. exists x. split; [assumption | apply Nat.eqb_refl].
Qed.

Lemma mem_reflect (x : Task) (l : list Task) : reflect (In x l) (mem x l).
Proof. apply iff_reflect. symmetry. apply mem_In. Qed.

Lemma list_remove_None (x : Task) (l : list Task) :
  list_remove x l = None <-> ~ In x l.
Proof.
  induction l as [|y l IH]; simpl.
  - tauto.
  - destruct (Nat.eqb_spec y x) as [->|Hne].
    + split; [discriminate | intros H; exfalso; apply H; now left].
    + destruct (list_remove x l) as [r|].
      * split; [discriminate|]. intros H. exfalso. apply H. right.
        destruct (in_dec Nat.eq_dec x l) as [Hin|Hout]; [assumption|].
        apply IH in Hout. discriminate.
      * split; [|reflexivity]. intros _ [E|Hin]; [congruence|].
        now apply (proj1 IH).
Qed.

Lemma list_remove_Some (x : Task) (l r : list Task) :
  list_remove x l = Some r ->
  exists l1 l2, l = l1 ++ x :: l2 /\ ~ In x l1 /\ r = l1 ++ l2.
Proof.
  revert r. induction l as [|y l IH]; simpl; intros r H.
  - discriminate.
  - destruct (Nat.eqb_spec y x) as [->|Hne].
    + injection H as <-. exists [], l. simpl. tauto.
    + destruct (list_remove x l) as [r'|]; [|discriminate].
      injection H as <-.
      destruct (IH r' eq_refl) as (l1 & l2 & -> & Hout & ->).
      exists (y :: l1), l2. simpl. repeat split; try reflexivity.
      intros [E|Hin]; [congruence | contradiction].
Qed.

Lemma list_remove_In (x : Task) (l : list Task) :
  In x l -> exists r, list_remove x l = Some r.
Proof.
  intros Hin. destruct (list_remove x l) as [r|] eqn:E.
  - now exists r.
  - apply list_remove_None in E. contradiction.
Qed.

Lemma list_remove_perm (x : Task) (l r : list Task) :
  list_remove x l = Some r -> Permutation l (x :: r).
Proof.
  intros H. destruct (list_remove_Some _ _ _ H) as (l1 & l2 & -> & _ & ->).
  symmetry. apply Permutation_middle.
Qed.

Lemma list_remove_length (x : Task) (l r : list Task) :
  list_remove x l = Some r -> length l = S (length r).
Proof.
  intros H. apply list_remove_perm in H.
  apply Permutation_length in H. exact H.
Qed.

Lemma list_remove_incl (x y : Task) (l r : list Task) :
  list_remove x l = Some r -> In y r -> In y l.
Proof.
  intros H Hy. apply list_remove_perm in H.
  apply Permutation_sym in H. eapply Permutation_in; [exact H|]. now right.
Qed.

Lemma find_waiter_None (t : Task) (q : list waiter) :
  find_waiter t q = None <-> ~ In t (map w_task q).
Proof.
  induction q as [|w q IH]; simpl.
  - tauto.
  - destruct (Nat.eqb_spec (w_task w) t) as [E|Hne].
    + split; [discriminate | intros H; exfalso; apply H; now left].
    + rewrite IH. tauto.
Qed.

Lemma find_waiter_Some (t : Task) (q : list waiter) (w : waiter) :
  find_waiter t q = Some w -> In w q /\ w_task w = t.
Proof.
  induction q as [|v q IH]; simpl.
  - discriminate.
  - destruct (Nat.eqb_spec (w_task v) t) as [E|Hne].
    + intros H. injection H as <-. split; [now left | assumption].
    + intros H. destruct (IH H) as [Hin E]. split; [now right | assumption].
Qed.

Lemma is_parked_false (t : Task) (c : _RWLockCore) :
  is_parked t c = false <-> ~ In t (map w_task (_cond c)).
Proof.
  unfold is_parked. rewrite <- find_waiter_None.
  destruct (find_waiter t (_cond c)); split; congruence.
Qed.

Lemma drop_waiter_incl (t : Task) (q : list waiter) (w : waiter) :
  In w (drop_waiter t q) -> In w q.
Proof.
  induction q as [|v q IH]; simpl; [tauto|].
  destruct (Nat.eqb (w_task v) t); simpl; intuition.
Qed.

Lemma drop_waiter_tasks (t u : Task) (q : list waiter) :
  In u (map w_task (drop_waiter t q)) -> In u (map w_task q).
Proof.
  rewrite !in_map_iff. intros (w & E & Hin).
  exists w. split; [assumption | now apply drop_waiter_incl in Hin].
Qed.

Lemma drop_waiter_NoDup (t : Task) (q : list waiter) :
  NoDup (map w_task q) ->
  NoDup (map w_task (drop_waiter t q)) /\ ~ In t (map w_task (drop_waiter t q)).
Proof.
  induction q as [|v q IH]; simpl; intros H.
  - split; [constructor | tauto].
  - inversion H as [|? ? Hout Hnd]; subst.
    destruct (Nat.eqb_spec (w_task v) t) as [E|Hne].
    + subst t. split; assumption.
    + destruct (IH Hnd) as [IH1 IH2]. simpl. split.
      * constructor; [|assumption].
        intros Hin. apply Hout. now apply drop_waiter_tasks in Hin.
      * intros [E|Hin]; [congruence | contradiction].
Qed.

Lemma notify_all_tasks (q : list waiter) :
  map w_task (notify_all q) = map w_task q.
Proof. unfold notify_all. rewrite map_map. reflexivity. Qed.

Lemma find_waiter_notify_all (t : Task) (q : list waiter) (w : waiter) :
  find_waiter t (notify_all q) = Some w -> w_notified w = true.
Proof.
  induction q as [|v q IH]; simpl; [discriminate|].
  destruct (Nat.eqb (w_task v) t); [|exact IH].
  intros H. injection H as <-. reflexivity.
Qed.

(** ** What the predicates do, case by case *)

Ltac split_tests :=
  repeat match goal with
  | |- context [Z.eqb ?a ?b] => destruct (Z.eqb_spec a b)
  | |- context [Z.ltb ?a ?b] => destruct (Z.ltb_spec a b)
  | |- context [mem ?x ?l] => destruct (mem_reflect x l)
  end; simpl.

Lemma _acquire_write_cases (me : Task) (c : _RWLockCore) :
  (_state c = 0 \/ (_state c < 0 /\ In me (_owning c))) /\
    _acquire_write me c =
      (Return true, set_owning (_owning c ++ [me]) (set_state (_state c - 1) c))
  \/ (0 < _state c /\ In me (_owning c)) /\
    _acquire_write me c = (Raise UpgradeForbidden, c)
  \/ (_state c <> 0 /\ ~ In me (_owning c)) /\
    _acquire_write me c = (Return false, c).
Proof.
  unfold _acquire_write. split_tests; try lia; intuition lia.
Qed.

Lemma _acquire_read_cases (me : Task) (c : _RWLockCore) :
  (_state c < 0 /\ In me (_owning c)) /\
    _acquire_read me c =
      (Return true, set_owning (_owning c ++ [me]) (set_state (_state c - 1) c))
  \/ (0 <= _state c /\ (_waiting c = 0 \/ In me (_owning c))) /\
    _acquire_read me c =
      (Return true, set_owning (_owning c ++ [me]) (set_state (_state c + 1) c))
  \/ ((_state c < 0 \/ _waiting c <> 0) /\ ~ In me (_owning c)) /\
    _acquire_read me c = (Return false, c).
Proof.
  unfold _acquire_read, _acquire_write. split_tests; try lia; intuition lia.
Qed.

(** ** The invariant of reachable cores *)

Lemma Inv_init : Inv __init__.
Proof.
  constructor; simpl; try tauto; try reflexivity. constructor.
Qed.

Lemma Inv_set_waiting (z : Z) (c : _RWLockCore) : Inv c -> Inv (set_waiting z c).
Proof. intros [H1 H2 H3 H4]. constructor; assumption. Qed.

Lemma Inv_drop_waiter (t : Task) (c : _RWLockCore) :
  Inv c ->
  Inv (set_cond (drop_waiter t (_cond c)) c) /\
  ~ In t (map w_task (drop_waiter t (_cond c))).
Proof.
  intros [H1 H2 H3 H4]. destruct (drop_waiter_NoDup t _ H4) as [Hnd Hout].
  split; [|assumption]. constructor; simpl; try assumption.
  intros u Hu. apply H3. now apply drop_waiter_tasks in Hu.
Qed.

Lemma owners_empty_of_idle (c : _RWLockCore) :
  Inv c -> _state c = 0 -> _owning c = [].
Proof.
  intros [H1 _ _ _] E. rewrite E in H1. simpl in H1.
  destruct (_owning c); [reflexivity | simpl in H1; lia].
Qed.

(** A hold taken by a task that is not parked keeps the invariant, whether
    the counter moved up (shared) or down (exclusive). *)
Lemma Inv_take_shared (me : Task) (c : _RWLockCore) :
  Inv c -> ~ In me (map w_task (_cond c)) -> 0 <= _state c ->
  Inv (set_owning (_owning c ++ [me]) (set_state (_state c + 1) c)).
Proof.
  intros [H1 H2 H3 H4] Hrun Hs. constructor; simpl.
  - rewrite length_app. simpl. lia.
  - lia.
  - intros t Ht Hin. apply in_app_or in Hin. destruct Hin as [Hin|[E|[]]].
    + now apply (H3 t).
    + subst. contradiction.
  - assumption.
Qed.

Lemma Inv_take_exclusive (me : Task) (c : _RWLockCore) :
  Inv c -> ~ In me (map w_task (_cond c)) ->
  _state c = 0 \/ (_state c < 0 /\ In me (_owning c)) ->
  Inv (set_owning (_owning c ++ [me]) (set_state (_state c - 1) c)).
Proof.
  intros HI Hrun Hs. pose proof (owners_empty_of_idle c HI) as Hidle.
  destruct HI as [H1 H2 H3 H4]. constructor; simpl.
  - rewrite length_app. simpl. lia.
  - intros _ a b Ha Hb.
    destruct Hs as [E|[Hneg Hme]].
    + rewrite (Hidle E) in Ha, Hb. simpl in Ha, Hb.
      destruct Ha as [<-|[]], Hb as [<-|[]]. reflexivity.
    + assert (Hall : forall x, In x (_owning c ++ [me]) -> x = me).
      { intros x Hx. apply in_app_or in Hx. destruct Hx as [Hx|[<-|[]]].
        - now apply H2. - reflexivity. }
      rewrite (Hall a Ha), (Hall b Hb). reflexivity.
  - intros t Ht Hin. apply in_app_or in Hin. destruct Hin as [Hin|[E|[]]].
    + now apply (H3 t).
    + subst. contradiction.
  - assumption.
Qed.

Lemma Inv_park (k : kind) (me : Task) (c : _RWLockCore) :
  Inv c -> ~ In me (map w_task (_cond c)) -> ~ In me (_owning c) ->
  Inv (park k me c).
Proof.
  intros [H1 H2 H3 H4] Hrun Hout. constructor; simpl; try assumption.
  - intros t Ht. rewrite map_app in Ht. apply in_app_or in Ht.
    destruct Ht as [Ht|[<-|[]]]; [now apply H3 | assumption].
  - rewrite map_app. simpl.
    apply NoDup_app; [assumption | repeat constructor; simpl; tauto |].
    intros t Ht [<-|[]]. contradiction.
Qed.

Lemma Inv_wait_for (k : kind) (me : Task) (c : _RWLockCore) :
  Inv c -> ~ In me (map w_task (_cond c)) -> Inv (snd (wait_for k me c)).
Proof.
  intros HI Hrun. unfold wait_for. destruct k; simpl.
  - destruct (_acquire_read_cases me c) as [[H ->]|[[H ->]|[H ->]]]; simpl.
    + apply Inv_take_exclusive; tauto.
    + apply Inv_take_shared; tauto.
    + apply Inv_park; tauto.
  - destruct (_acquire_write_cases me c) as [[H ->]|[[H ->]|[H ->]]]; simpl.
    + apply Inv_take_exclusive; tauto.
    + assumption.
    + apply Inv_park; tauto.
Qed.

Lemma Inv_finally_waiting (r : outcome * _RWLockCore) :
  Inv (snd r) -> Inv (snd (finally_waiting r)).
Proof.
  destruct r as [o c]. simpl. intros H.
  destruct o; simpl; try apply Inv_set_waiting; assumption.
Qed.

Lemma Inv_release (me : Task) (c : _RWLockCore) :
  Inv c -> Inv (snd (release me c)).
Proof.
  intros HI. unfold release.
  destruct (list_remove me (_owning c)) as [l|] eqn:E; [|exact HI].
  pose proof (list_remove_length _ _ _ E) as Hlen.
  destruct HI as [H1 H2 H3 H4].
  assert (Hsub : forall y, In y l -> In y (_owning c))
    by (intros y; apply (list_remove_incl _ _ _ _ E)).
  simpl.
  destruct (Z.ltb_spec 0 (_state c)) as [Hpos|Hneg]; simpl;
    match goal with |- context [Z.eqb ?a ?b] => destruct (Z.eqb_spec a b) end;
    simpl; constructor; simpl; try rewrite notify_all_tasks;
    try assumption; try lia; auto.
  all: try (intros Hs a b Ha Hb; apply H2; auto; lia).
  all: intros t Ht Hin; apply (H3 t Ht); auto.
Qed.

Lemma Inv_step (e : event) (c c' : _RWLockCore) (o : outcome) :
  Inv c -> step e c = Some (o, c') -> Inv c'.
Proof.
  intros HI H. destruct e as [t|t|t|t|t]; simpl in H.
  - destruct (is_parked t c) eqn:P; [discriminate|]. apply is_parked_false in P.
    injection H as H. change c' with (snd (o, c')). rewrite <- H.
    now apply Inv_wait_for.
  - destruct (is_parked t c) eqn:P; [discriminate|]. apply is_parked_false in P.
    injection H as H. change c' with (snd (o, c')). rewrite <- H.
    apply Inv_finally_waiting, Inv_wait_for; [now apply Inv_set_waiting | exact P].
  - destruct (is_parked t c) eqn:P; [discriminate|].
    injection H as H. change c' with (snd (o, c')). rewrite <- H.
    now apply Inv_release.
  - destruct (find_waiter t (_cond c)) as [w|] eqn:F; [|discriminate].
    destruct (w_notified w); [|discriminate].
    injection H as H. change c' with (snd (o, c')). rewrite <- H.
    destruct (Inv_drop_waiter (w_task w) c HI) as [HI' Hout].
    unfold resume. destruct (w_kind w).
    + now apply Inv_wait_for.
    + apply Inv_finally_waiting. now apply Inv_wait_for.
  - destruct (find_waiter t (_cond c)) as [w|] eqn:F; [|discriminate].
    injection H as H. change c' with (snd (o, c')). rewrite <- H.
    destruct (Inv_drop_waiter (w_task w) c HI) as [HI' Hout].
    unfold cancel. destruct (w_kind w); simpl.
    + assumption.
    + now apply Inv_set_waiting.
Qed.

Lemma reachable_Inv (c : _RWLockCore) : reachable c -> Inv c.
Proof.
  induction 1 as [|c e o c' _ IH Hstep].
  - apply Inv_init.
  - eapply Inv_step; eassumption.
Qed.

Lemma run_reachable (es : list event) (c c' : _RWLockCore) :
  reachable c -> run es c = Some c' -> reachable c'.
Proof.
  revert c. induction es as [|e es IH]; simpl; intros c Hc H.
  - injection H as <-. assumption.
  - destruct (step e c) as [[o c1]|] eqn:E; [|discriminate].
    apply (IH c1); [|assumption]. eapply reach_step; eassumption.
Qed.

(** ** Outcomes of the segments *)

Lemma wait_for_raises (k : kind) (me : Task) (c : _RWLockCore) (e : exn) :
  fst (wait_for k me c) = Raised e <->
  k = Writer /\ e = UpgradeForbidden /\ 0 < _state c /\ In me (_owning c).
Proof.
  unfold wait_for. destruct k; simpl.
  - destruct (_acquire_read_cases me c) as [[H ->]|[[H ->]|[H ->]]]; simpl;
      split; try discriminate; intros (? & _); discriminate.
  - destruct (_acquire_write_cases me c) as [[H ->]|[[H ->]|[H ->]]]; simpl.
    + split; [discriminate | intros (_ & _ & ? & ?); exfalso; lia].
    + split; [intros E; injection E as <-; tauto | intros (_ & -> & _); reflexivity].
    + split; [discriminate | intros (_ & _ & ? & ?); exfalso; tauto].
Qed.

Lemma finally_waiting_raises (r : outcome * _RWLockCore) (e : exn) :
  fst (finally_waiting r) = Raised e <-> fst r = Raised e.
Proof. destruct r as [[] c]; simpl; tauto. Qed.

Lemma set_waiting_restore (c : _RWLockCore) :
  let c1 := set_waiting (_waiting c + 1) c in
  set_waiting (_waiting c1 - 1) c1 = c.
Proof. destruct c as [q s w l]. unfold set_waiting. simpl. f_equal. lia. Qed.

Lemma acquire_write_upgrade (me : Task) (c : _RWLockCore) :
  0 < _state c -> In me (_owning c) ->
  acquire_write me c = (Raised UpgradeForbidden, c).
Proof.
  intros Hpos Hin. unfold acquire_write, wait_for. simpl.
  destruct (_acquire_write_cases me (set_waiting (_waiting c + 1) c))
    as [[H E]|[[H E]|[H E]]]; simpl in H.
  - exfalso. lia.
  - rewrite E. simpl. f_equal. apply set_waiting_restore.
  - exfalso. tauto.
Qed.

Lemma resume_never_raises (c c' : _RWLockCore) (t : Task) (o : outcome) :
  Inv c -> step (Resume t) c = Some (o, c') -> forall e, o <> Raised e.
Proof.
  intros HI H e Ho. simpl in H.
  destruct (find_waiter t (_cond c)) as [w|] eqn:F; [|discriminate].
  destruct (w_notified w); [|discriminate].
  apply find_waiter_Some in F. destruct F as [Hw Ht].
  assert (Hout : ~ In (w_task w) (_owning c)).
  { apply (inv_parked c HI). apply in_map. exact Hw. }
  injection H as H. apply (f_equal fst) in H. simpl in H.
  rewrite Ho in H. clear Ho.
  unfold resume in H. destruct (w_kind w).
  - apply wait_for_raises in H. destruct H as (K & _). discriminate.
  - apply finally_waiting_raises, wait_for_raises in H.
    simpl in H. tauto.
Qed.

(** ** Mutual exclusion and counting *)

(** C1 — mutual exclusion of the exclusive mode: in every reachable state
    with a negative [_state], all entries of [_owning] are one and the same
    task. *)
Theorem exclusive_mode_single_owner (c : _RWLockCore) :
  reachable c -> _state c < 0 ->
  forall a b : Task, In a (_owning c) -> In b (_owning c) -> a = b.
Proof.
  intros Hr. exact (inv_excl c (reachable_Inv c Hr)).
Qed.

Lemma exclusive_mode_single_owner_witness :
  let c := mkCore [] (-2) 0 [1; 1]%nat in
  reachable c /\ _state c < 0 /\
  forall a b : Task, In a (_owning c) -> In b (_owning c) -> a = b.
Proof.
  assert (Hr : reachable (mkCore [] (-2) 0 [1; 1]%nat)).
  { apply (run_reachable [AcquireExclusive 1; AcquireExclusive 1] __init__);
      [apply reach_init | reflexivity]. }
  simpl. split; [exact Hr|]. split; [lia|].
  apply (exclusive_mode_single_owner _ Hr). simpl. lia.
Defined.

(** C2 — counting invariant: in every reachable state the absolute value of
    [_state] is the length of [_owning]; in particular an idle lock has no
    owner.  Failing operations are steps like any other. *)
Theorem counting_invariant (c : _RWLockCore) :
  reachable c ->
  Z.abs (_state c) = Z.of_nat (length (_owning c)) /\
  (_state c = 0 -> _owning c = []).
Proof.
  intros Hr. pose proof (reachable_Inv c Hr) as HI. split.
  - exact (inv_count c HI).
  - exact (owners_empty_of_idle c HI).
Qed.

Lemma counting_invariant_witness :
  let c := mkCore [mkWaiter 2 Writer false] 2 1 [1; 1]%nat in
  reachable c /\
  Z.abs (_state c) = Z.of_nat (length (_owning c)) /\
  (_state c = 0 -> _owning c = []).
Proof.
  assert (Hr : reachable (mkCore [mkWaiter 2 Writer false] 2 1 [1; 1]%nat)).
  { apply (run_reachable
             [AcquireShared 1; AcquireExclusive 1; Release 2; AcquireShared 1;
              AcquireExclusive 2] __init__);
      [apply reach_init | reflexivity]. }
  simpl. split; [exact Hr|].
  exact (counting_invariant _ Hr).
Defined.

(** ** The two errors *)

(** C3 — upgrade rejection: [acquire_write] raises exactly when the caller is
    an owner of a lock in shared mode, the error is the upgrade error, the
    core comes back unchanged ([_waiting] restored by the [finally]), and a
    coroutine resumed from a parked wait never raises. *)
Theorem upgrade_rejected_synchronously (c : _RWLockCore) (me : Task) :
  reachable c ->
  (forall e, fst (acquire_write me c) = Raised e <->
             e = UpgradeForbidden /\ 0 < _state c /\ In me (_owning c)) /\
  (0 < _state c /\ In me (_owning c) ->
   acquire_write me c = (Raised UpgradeForbidden, c)) /\
  (forall t o c', step (Resume t) c = Some (o, c') -> forall e, o <> Raised e).
Proof.
  intros Hr. split; [|split].
  - intros e. unfold acquire_write.
    rewrite finally_waiting_raises, wait_for_raises. simpl. tauto.
  - intros [Hpos Hin]. now apply acquire_write_upgrade.
  - intros t o c' H. eapply resume_never_raises; [|exact H].
    now apply reachable_Inv.
Qed.

Lemma upgrade_rejected_synchronously_witness :
  let c := mkCore [] 1 0 [1]%nat in
  reachable c /\ acquire_write 1 c = (Raised UpgradeForbidden, c).
Proof.
  assert (Hr : reachable (mkCore [] 1 0 [1]%nat)).
  { apply (run_reachable [AcquireShared 1] __init__);
      [apply reach_init | reflexivity]. }
  simpl. split; [exact Hr|].
  apply (proj1 (proj2 (upgrade_rejected_synchronously _ 1%nat Hr))).
  simpl. split; [lia | now left].
Defined.

Lemma release_held (me : Task) (c : _RWLockCore) (l : list Task) :
  list_remove me (_owning c) = Some l ->
  let z := if 0 <? _state c then _state c - 1 else _state c + 1 in
  release me c =
    (Released,
     {| _cond := if z =? 0 then notify_all (_cond c) else _cond c;
        _state := z; _waiting := _waiting c; _owning := l |}).
Proof.
  intros E. unfold release. rewrite E. simpl.
  destruct (0 <? _state c); simpl;
    match goal with |- context [Z.eqb ?a ?b] => destruct (Z.eqb a b) end;
    reflexivity.
Qed.

Lemma release_not_held (me : Task) (c : _RWLockCore) :
  ~ In me (_owning c) -> release me c = (Raised NotHeld, c).
Proof.
  intros H. apply list_remove_None in H. unfold release. now rewrite H.
Qed.

(** C4 — release error atomicity: [release] raises exactly when the caller has
    no entry in [_owning], the error is the not-held error and the core is
    unchanged; otherwise it returns and drops exactly one entry of the caller
    (the first), leaving [_waiting] alone. *)
Theorem release_error_atomicity (c : _RWLockCore) (me : Task) :
  (forall e, fst (release me c) = Raised e <->
             e = NotHeld /\ ~ In me (_owning c)) /\
  (~ In me (_owning c) -> release me c = (Raised NotHeld, c)) /\
  (In me (_owning c) ->
   fst (release me c) = Released /\
   _waiting (snd (release me c)) = _waiting c /\
   exists l1 l2, _owning c = l1 ++ me :: l2 /\ ~ In me l1 /\
                 _owning (snd (release me c)) = l1 ++ l2).
Proof.
  destruct (in_dec Nat.eq_dec me (_owning c)) as [Hin|Hout].
  - destruct (list_remove_In _ _ Hin) as [l E].
    rewrite (release_held _ _ _ E). simpl. split; [|split].
    + intros e. split; [discriminate | tauto].
    + tauto.
    + intros _. split; [reflexivity|]. split; [reflexivity|].
      destruct (list_remove_Some _ _ _ E) as (l1 & l2 & E1 & Hl1 & E2).
      exists l1, l2. tauto.
  - rewrite (release_not_held _ _ Hout). simpl. split; [|split].
    + intros e. split.
      * intros H. injection H as <-. tauto.
      * intros [-> _]. reflexivity.
    + reflexivity.
    + tauto.
Qed.

Lemma release_error_atomicity_witness :
  let c := mkCore [] 3 0 [2; 1; 1]%nat in
  release 3 c = (Raised NotHeld, c) /\
  fst (release 1 c) = Released /\
  _waiting (snd (release 1 c)) = 0.
Proof.
  simpl.
  pose proof (release_error_atomicity (mkCore [] 3 0 [2; 1; 1]%nat)) as R.
  split.
  - apply (proj1 (proj2 (R 3%nat))). simpl. lia.
  - destruct (proj2 (proj2 (R 1%nat))) as (Ho & Hw & _).
    + simpl. tauto.
    + split; [exact Ho | exact Hw].
Defined.

(** ** Writer preference and the shared acquire *)

Lemma acquire_read_fresh_blocked (t : Task) (c : _RWLockCore) :
  (_state c < 0 \/ _waiting c <> 0) -> ~ In t (_owning c) ->
  acquire_read t c = (Parked, park Reader t c).
Proof.
  intros Hw Hout. unfold acquire_read, wait_for. simpl.
  destruct (_acquire_read_cases t c) as [[H E]|[[H E]|[H E]]].
  - exfalso. tauto.
  - exfalso. destruct H as [H1 [H2|H2]]; [|contradiction].
    destruct Hw as [Hw|Hw]; [lia | contradiction].
  - rewrite E. reflexivity.
Qed.

Lemma acquire_read_recursive (t : Task) (c : _RWLockCore) :
  0 <= _state c -> (_waiting c = 0 \/ In t (_owning c)) ->
  acquire_read t c =
    (Acquired, set_owning (_owning c ++ [t]) (set_state (_state c + 1) c)).
Proof.
  intros Hs Hin. unfold acquire_read, wait_for. simpl.
  destruct (_acquire_read_cases t c) as [[H E]|[[H E]|[H E]]].
  - exfalso. lia.
  - rewrite E. reflexivity.
  - exfalso. destruct H as [[H|H] Hout]; [lia|]. tauto.
Qed.

Lemma acquire_read_promoted (t : Task) (c : _RWLockCore) :
  _state c < 0 -> In t (_owning c) ->
  acquire_read t c =
    (Acquired, set_owning (_owning c ++ [t]) (set_state (_state c - 1) c)).
Proof.
  intros Hs Hin. unfold acquire_read, wait_for. simpl.
  destruct (_acquire_read_cases t c) as [[H E]|[[H E]|[H E]]].
  - rewrite E. reflexivity.
  - exfalso. lia.
  - exfalso. tauto.
Qed.

(** The owners after one round of [wait_for]: either untouched, or the
    caller was appended; a caller that was no owner before and is one now
    went in through the branch named by the lemma. *)
Lemma wait_for_owners (k : kind) (me : Task) (c : _RWLockCore) :
  let c' := snd (wait_for k me c) in
  (_owning c' = _owning c) \/
  (_owning c' = _owning c ++ [me] /\
   (_state c' < 0 \/
    (k = Reader /\ 0 < _state c' /\ (_waiting c = 0 \/ In me (_owning c))))).
Proof.
  unfold wait_for. destruct k; simpl.
  - destruct (_acquire_read_cases me c) as [[H ->]|[[H ->]|[H ->]]]; simpl.
    + right. split; [reflexivity|]. left. lia.
    + right. split; [reflexivity|]. right. repeat split; try tauto. lia.
    + now left.
  - destruct (_acquire_write_cases me c) as [[H ->]|[[H ->]|[H ->]]]; simpl.
    + right. split; [reflexivity|]. left. lia.
    + now left.
    + now left.
Qed.

Lemma finally_waiting_fields (r : outcome * _RWLockCore) :
  _owning (snd (finally_waiting r)) = _owning (snd r) /\
  _state (snd (finally_waiting r)) = _state (snd r).
Proof. destruct r as [[] c]; simpl; tauto. Qed.

Lemma step_new_owner (e : event) (o : outcome) (c c' : _RWLockCore) (t : Task) :
  step e c = Some (o, c') -> 0 < _waiting c ->
  ~ In t (_owning c) -> In t (_owning c') -> _state c' < 0.
Proof.
  intros H Hw Hout Hin. destruct e as [u|u|u|u|u]; simpl in H.
  - destruct (is_parked u c); [discriminate|]. injection H as H.
    apply (f_equal snd) in H. simpl in H. subst c'. unfold acquire_read in *.
    destruct (wait_for_owners Reader u c) as [E|[E [Hs|(_ & _ & [Hz|Hu])]]];
      simpl in E; rewrite E in Hin; try contradiction; try assumption.
    + exfalso. lia.
    + apply in_app_or in Hin. destruct Hin as [Hin|[<-|[]]]; contradiction.
  - destruct (is_parked u c); [discriminate|]. injection H as H.
    apply (f_equal snd) in H. simpl in H. subst c'. unfold acquire_write in *.
    destruct (finally_waiting_fields
                (wait_for Writer u (set_waiting (_waiting c + 1) c))) as [Eo Es].
    rewrite Eo in Hin. rewrite Es.
    destruct (wait_for_owners Writer u (set_waiting (_waiting c + 1) c))
      as [E|[E [Hs|(K & _)]]]; simpl in E.
    + rewrite E in Hin. contradiction.
    + exact Hs.
    + discriminate.
  - destruct (is_parked u c); [discriminate|]. injection H as H.
    apply (f_equal snd) in H. simpl in H. subst c'.
    destruct (in_dec Nat.eq_dec u (_owning c)) as [Hu|Hu].
    + destruct (list_remove_In _ _ Hu) as [l E].
      rewrite (release_held _ _ _ E) in Hin. simpl in Hin.
      exfalso. apply Hout. eapply list_remove_incl; eassumption.
    + rewrite (release_not_held _ _ Hu) in Hin. contradiction.
  - destruct (find_waiter u (_cond c)) as [w|]; [|discriminate].
    destruct (w_notified w); [|discriminate]. injection H as H.
    apply (f_equal snd) in H. simpl in H. subst c'. unfold resume in *.
    set (c1 := set_cond (drop_waiter (w_task w) (_cond c)) c) in *.
    destruct (w_kind w).
    + destruct (wait_for_owners Reader (w_task w) c1)
        as [E|[E [Hs|(_ & _ & [Hz|Hu])]]];
        simpl in E; rewrite E in Hin; try contradiction; try assumption.
      * exfalso. simpl in Hz. lia.
      * apply in_app_or in Hin. simpl in Hu.
        destruct Hin as [Hin|[<-|[]]]; contradiction.
    + destruct (finally_waiting_fields (wait_for Writer (w_task w) c1)) as [Eo Es].
      rewrite Eo in Hin. rewrite Es.
      destruct (wait_for_owners Writer (w_task w) c1) as [E|[E [Hs|(K & _)]]];
        simpl in E.
      * rewrite E in Hin. contradiction.
      * exact Hs.
      * discriminate.
  - destruct (find_waiter u (_cond c)) as [w|]; [|discriminate].
    injection H as H. apply (f_equal snd) in H. simpl in H. subst c'.
    unfold cancel in Hin. destruct (w_kind w); simpl in Hin; contradiction.
Qed.

(** C5 — writer preference: while [_waiting] is positive, a task that is not
    an owner is parked by [acquire_read], and whatever step the system takes,
    a task that newly appears in [_owning] did so with a negative [_state]
    (never in shared mode); a task that already owns the lock in shared mode
    acquires again at once. *)
Theorem writer_preference (c : _RWLockCore) (t : Task) :
  0 < _waiting c ->
  (~ In t (_owning c) -> acquire_read t c = (Parked, park Reader t c)) /\
  (forall e o c', step e c = Some (o, c') ->
                  ~ In t (_owning c) -> In t (_owning c') -> _state c' < 0) /\
  (0 < _state c -> In t (_owning c) ->
   acquire_read t c =
     (Acquired, set_owning (_owning c ++ [t]) (set_state (_state c + 1) c))).
Proof.
  intros Hw. split; [|split].
  - intros Hout. apply acquire_read_fresh_blocked; [right; lia | exact Hout].
  - intros e o c' H. eapply step_new_owner; eassumption.
  - intros Hs Hin. apply acquire_read_recursive; [lia | now right].
Qed.

Lemma writer_preference_witness :
  let c := mkCore [mkWaiter 2 Writer false] 1 1 [1]%nat in
  0 < _waiting c /\
  acquire_read 3 c = (Parked, park Reader 3 c) /\
  acquire_read 1 c =
    (Acquired, set_owning (_owning c ++ [1]%nat) (set_state (_state c + 1) c)).
Proof.
  simpl.
  pose proof (writer_preference (mkCore [mkWaiter 2 Writer false] 1 1 [1]%nat)) as W.
  split; [lia|]. split.
  - apply (proj1 (W 3%nat ltac:(simpl; lia))). simpl. lia.
  - apply (proj2 (proj2 (W 1%nat ltac:(simpl; lia)))); simpl; [lia | now left].
Defined.

(** C6 (as written in the specification) fails: after a reader released the
    lock to idle while a writer is still queued, the same reader's next
    [acquire_read] is parked.  The trace is the one [test_writer_success]
    relies on. *)
Lemma acquire_shared_from_idle_counterexample :
  let c := mkCore [mkWaiter 2 Writer true] 0 1 [] in
  run [AcquireShared 1; AcquireExclusive 2; Release 1] __init__ = Some c /\
  _state c = 0 /\
  step (AcquireShared 1) c =
    Some (Parked,
          mkCore [mkWaiter 2 Writer true; mkWaiter 1 Reader false] 0 1 []).
Proof. simpl. repeat split; reflexivity. Qed.

(** C6 (amended) — acquire-shared from idle: on a reachable idle lock,
    [acquire_read] returns at once with [_state = 1] and the caller as the
    only owner when [_waiting] is zero; when [_waiting] is not zero the
    caller is parked and the counters and owners stay as they were. *)
Theorem acquire_shared_from_idle (c : _RWLockCore) (t : Task) :
  reachable c -> _state c = 0 ->
  (_waiting c = 0 ->
   acquire_read t c =
     (Acquired,
      {| _cond := _cond c; _state := 1; _waiting := 0; _owning := [t] |})) /\
  (_waiting c <> 0 -> acquire_read t c = (Parked, park Reader t c)).
Proof.
  intros Hr Hs.
  pose proof (owners_empty_of_idle c (reachable_Inv c Hr) Hs) as Ho.
  split.
  - intros Hw. rewrite acquire_read_recursive; [|lia | now left].
    unfold set_owning, set_state. simpl. rewrite Ho, Hs, Hw. reflexivity.
  - intros Hw. apply acquire_read_fresh_blocked; [now right|].
    rewrite Ho. simpl. tauto.
Qed.

Lemma acquire_shared_from_idle_witness :
  let c := mkCore [mkWaiter 2 Writer true] 0 1 [] in
  reachable c /\ _state c = 0 /\
  acquire_read 1 c = (Parked, park Reader 1 c) /\
  acquire_read 1 __init__ = (Acquired, mkCore [] 1 0 [1]%nat).
Proof.
  assert (Hr : reachable (mkCore [mkWaiter 2 Writer true] 0 1 [])).
  { apply (run_reachable [AcquireShared 1; AcquireExclusive 2; Release 1] __init__);
      [apply reach_init | reflexivity]. }
  simpl. split; [exact Hr|]. split; [reflexivity|]. split.
  - apply (proj2 (acquire_shared_from_idle _ 1%nat Hr eq_refl)). simpl. lia.
  - apply (proj1 (acquire_shared_from_idle __init__ 1%nat reach_init eq_refl)).
    reflexivity.
Defined.

(** C7 — shared acquire under exclusive ownership: with a negative [_state],
    [acquire_read] by an owner returns at once, [_state] going down by one
    and the caller appended to [_owning]; by any other task it parks, and
    only the condition's queue changes. *)
Theorem shared_acquire_promoted (c : _RWLockCore) (t : Task) :
  _state c < 0 ->
  (In t (_owning c) ->
   acquire_read t c =
     (Acquired,
      {| _cond := _cond c; _state := _state c - 1; _waiting := _waiting c;
         _owning := _owning c ++ [t] |})) /\
  (~ In t (_owning c) ->
   acquire_read t c =
     (Parked,
      {| _cond := _cond c ++ [mkWaiter t Reader false]; _state := _state c;
         _waiting := _waiting c; _owning := _owning c |})).
Proof.
  intros Hs. split.
  - intros Hin. now rewrite acquire_read_promoted.
  - intros Hout. rewrite acquire_read_fresh_blocked; [reflexivity | now left | exact Hout].
Qed.

Lemma shared_acquire_promoted_witness :
  let c := mkCore [] (-1) 0 [1]%nat in
  _state c < 0 /\
  acquire_read 1 c = (Acquired, mkCore [] (-2) 0 [1; 1]%nat) /\
  acquire_read 2 c = (Parked, mkCore [mkWaiter 2 Reader false] (-1) 0 [1]%nat).
Proof.
  simpl. split; [lia|]. split.
  - apply (proj1 (shared_acquire_promoted (mkCore [] (-1) 0 [1]%nat) 1%nat
                    ltac:(simpl; lia))).
    simpl. now left.
  - apply (proj2 (shared_acquire_promoted (mkCore [] (-1) 0 [1]%nat) 2%nat
                    ltac:(simpl; lia))).
    simpl. lia.
Defined.

(** ** Release: accounting, wake-up, round trips *)

Lemma handle_release_core (h : handle) (me : Task) (rw : RWLock) :
  fst (handle_release h me rw) = fst (release me (core rw)) /\
  core (snd (handle_release h me rw)) = snd (release me (core rw)).
Proof.
  unfold handle_release. destruct (release me (core rw)) as [o c'].
  destruct o, h; simpl; split; reflexivity.
Qed.

(** C8 — sign-directed release accounting: a release by an owner returns,
    through either handle, with the core that the one core [release]
    computes; [_state] went down by one if it was positive and up by one
    otherwise, which on a reachable core is one step toward zero. *)
Theorem release_sign_directed (rw : RWLock) (h : handle) (me : Task) :
  In me (_owning (core rw)) ->
  let c := core rw in
  let c' := core (snd (handle_release h me rw)) in
  fst (handle_release h me rw) = Released /\
  c' = snd (release me c) /\
  c' = core (snd (handle_release reader_lock me rw)) /\
  c' = core (snd (handle_release writer_lock me rw)) /\
  (0 < _state c -> _state c' = _state c - 1) /\
  (_state c <= 0 -> _state c' = _state c + 1) /\
  (reachable c -> Z.abs (_state c') = Z.abs (_state c) - 1).
Proof.
  intros Hin. simpl.
  destruct (handle_release_core h me rw) as [Eo Ec].
  destruct (handle_release_core reader_lock me rw) as [_ Er].
  destruct (handle_release_core writer_lock me rw) as [_ Ew].
  rewrite Eo, Ec, Er, Ew.
  destruct (list_remove_In _ _ Hin) as [l E].
  rewrite (release_held _ _ _ E). simpl.
  repeat split.
  - intros Hpos. destruct (Z.ltb_spec 0 (_state (core rw))); lia.
  - intros Hneg. destruct (Z.ltb_spec 0 (_state (core rw))); lia.
  - intros Hr. pose proof (inv_count _ (reachable_Inv _ Hr)) as Hc.
    apply list_remove_length in E. rewrite E in Hc.
    destruct (Z.ltb_spec 0 (_state (core rw))); lia.
Qed.

Lemma release_sign_directed_witness :
  let shared := mkRWLock (mkCore [] 2 0 [1; 2]%nat) true false in
  let excl := mkRWLock (mkCore [] (-2) 0 [1; 1]%nat) false true in
  _state (core (snd (handle_release writer_lock 2 shared))) = 1 /\
  _state (core (snd (handle_release reader_lock 1 excl))) = -1.
Proof.
  simpl. split.
  - apply (proj1 (proj2 (proj2 (proj2 (proj2
            (release_sign_directed (mkRWLock (mkCore [] 2 0 [1; 2]%nat) true false)
               writer_lock 2%nat ltac:(simpl; lia))))))).
    simpl. lia.
  - apply (proj1 (proj2 (proj2 (proj2 (proj2 (proj2
            (release_sign_directed (mkRWLock (mkCore [] (-2) 0 [1; 1]%nat) false true)
               reader_lock 1%nat ltac:(simpl; lia)))))))).
    simpl. lia.
Defined.

Lemma notify_all_Forall (q : list waiter) :
  Forall (fun w => w_notified w = true) (notify_all q).
Proof.
  unfold notify_all. apply Forall_forall. intros w Hw.
  apply in_map_iff in Hw. destruct Hw as (v & <- & _). reflexivity.
Qed.

(** C9 — narrow wake policy: a release that returns with [_state = 0] has
    notified every queued waiter; one that returns with [_state <> 0] leaves
    the queue as it was, notified flags included; one that raises leaves the
    whole core as it was. *)
Theorem narrow_wake_policy (c : _RWLockCore) (me : Task) :
  let r := release me c in
  (fst r = Released /\ _state (snd r) = 0 ->
   _cond (snd r) = notify_all (_cond c) /\
   Forall (fun w => w_notified w = true) (_cond (snd r))) /\
  (fst r = Released /\ _state (snd r) <> 0 -> _cond (snd r) = _cond c) /\
  (forall e, fst r = Raised e -> snd r = c) /\
  _cond (snd r) =
    (match fst r with
     | Released => if _state (snd r) =? 0 then notify_all (_cond c) else _cond c
     | _ => _cond c
     end).
Proof.
  simpl. destruct (in_dec Nat.eq_dec me (_owning c)) as [Hin|Hout].
  - destruct (list_remove_In _ _ Hin) as [l E].
    rewrite (release_held _ _ _ E). simpl.
    set (z := if 0 <? _state c then _state c - 1 else _state c + 1).
    destruct (Z.eqb_spec z 0) as [Hz|Hz]; (split; [|split; [|split]]).
    + intros _. split; [reflexivity | apply notify_all_Forall].
    + intros [_ K]. contradiction.
    + intros e K. discriminate.
    + reflexivity.
    + intros [_ K]. contradiction.
    + intros _. reflexivity.
    + intros e K. discriminate.
    + reflexivity.
  - rewrite (release_not_held _ _ Hout). simpl. split; [|split; [|split]].
    + intros [K _]. discriminate.
    + intros [K _]. discriminate.
    + intros e _. reflexivity.
    + reflexivity.
Qed.

Lemma narrow_wake_policy_witness :
  let idle := mkCore [mkWaiter 2 Writer false] 1 1 [1]%nat in
  let held := mkCore [mkWaiter 2 Writer false] 2 1 [1; 1]%nat in
  _cond (snd (release 1 idle)) = [mkWaiter 2 Writer true] /\
  _cond (snd (release 1 held)) = [mkWaiter 2 Writer false] /\
  snd (release 2 held) = held.
Proof.
  simpl. split; [|split].
  - apply (proj1 (narrow_wake_policy
                    (mkCore [mkWaiter 2 Writer false] 1 1 [1]%nat) 1%nat)).
    split; reflexivity.
  - apply (proj1 (proj2 (narrow_wake_policy
                    (mkCore [mkWaiter 2 Writer false] 2 1 [1; 1]%nat) 1%nat))).
    split; [reflexivity | discriminate].
  - apply (proj1 (proj2 (proj2 (narrow_wake_policy
                    (mkCore [mkWaiter 2 Writer false] 2 1 [1; 1]%nat) 2%nat)))
             NotHeld).
    reflexivity.
Defined.

Lemma Permutation_remove_appended (t : Task) (l r : list Task) :
  list_remove t (l ++ [t]) = Some r -> Permutation r l.
Proof.
  intros E. apply list_remove_perm in E.
  apply (Permutation_cons_inv (a := t)).
  rewrite <- E. symmetry. apply Permutation_cons_append.
Qed.

Lemma release_after_take (t : Task) (c : _RWLockCore) (z : Z) :
  z <> 0 ->
  (if 0 <? z then z - 1 else z + 1) = _state c ->
  exists c2,
    release t (set_owning (_owning c ++ [t]) (set_state z c)) = (Released, c2) /\
    _state c2 = _state c /\ _waiting c2 = _waiting c /\
    Permutation (_owning c2) (_owning c).
Proof.
  intros Hz Hs.
  assert (Hin : In t (_owning c ++ [t])) by (apply in_or_app; right; now left).
  destruct (list_remove_In _ _ Hin) as [r E].
  eexists. split.
  - apply release_held. simpl. exact E.
  - simpl. repeat split; [exact Hs|].
    now apply Permutation_remove_appended in E.
Qed.

Lemma finally_waiting_acquired (r : outcome * _RWLockCore) (c1 : _RWLockCore) :
  finally_waiting r = (Acquired, c1) ->
  exists c0, r = (Acquired, c0) /\ c1 = set_waiting (_waiting c0 - 1) c0.
Proof.
  destruct r as [[] c0]; simpl; intros H; try discriminate.
  injection H as <-. now exists c0.
Qed.

(** C10 — round trip: from a core on which the acquire returns at once,
    acquire followed by release by the same task returns, and the final core
    has the [_state], the [_waiting] and, up to order, the [_owning] of the
    first one; for [acquire_read] and for [acquire_write] alike. *)
Theorem acquire_release_round_trip (k : kind) (c c1 : _RWLockCore) (t : Task) :
  (match k with
   | Reader => acquire_read t c
   | Writer => acquire_write t c
   end) = (Acquired, c1) ->
  exists c2,
    release t c1 = (Released, c2) /\
    _state c2 = _state c /\
    _waiting c2 = _waiting c /\
    Permutation (_owning c2) (_owning c).
Proof.
  destruct k; intros H.
  - unfold acquire_read, wait_for in H. simpl in H.
    destruct (_acquire_read_cases t c) as [[Hc E]|[[Hc E]|[Hc E]]];
      rewrite E in H; try discriminate; injection H as <-.
    + apply release_after_take; [lia|].
      destruct (Z.ltb_spec 0 (_state c - 1)); lia.
    + apply release_after_take; [lia|].
      destruct (Z.ltb_spec 0 (_state c + 1)); lia.
  - unfold acquire_write in H. apply finally_waiting_acquired in H.
    destruct H as (c0 & H & ->). unfold wait_for in H. simpl in H.
    destruct (_acquire_write_cases t (set_waiting (_waiting c + 1) c))
      as [[Hc E]|[[Hc E]|[Hc E]]];
      rewrite E in H; try discriminate. injection H as <-. simpl in Hc.
    destruct (list_remove_In t (_owning c ++ [t])) as [r Er].
    { apply in_or_app; right; now left. }
    eexists. split.
    + apply release_held. simpl. exact Er.
    + simpl. repeat split.
      * destruct (Z.ltb_spec 0 (_state c - 1)); lia.
      * lia.
      * now apply Permutation_remove_appended in Er.
Qed.

Lemma acquire_release_round_trip_witness :
  let c := mkCore [] 1 0 [1; 2]%nat in
  let d := mkCore [mkWaiter 3 Reader false] (-1) 0 [1]%nat in
  (exists c2, release 1 (mkCore [] 2 0 [1; 2; 1]%nat) = (Released, c2) /\
              _state c2 = 1 /\ _waiting c2 = 0 /\
              Permutation (_owning c2) [1; 2]%nat) /\
  (exists d2, release 1 (mkCore [mkWaiter 3 Reader false] (-2) 0 [1; 1]%nat)
                = (Released, d2) /\
              _state d2 = -1 /\ _waiting d2 = 0 /\
              Permutation (_owning d2) [1]%nat).
Proof.
  simpl. split.
  - apply (acquire_release_round_trip Reader (mkCore [] 1 0 [1; 2]%nat)
             (mkCore [] 2 0 [1; 2; 1]%nat) 1%nat).
    reflexivity.
  - apply (acquire_release_round_trip Writer
             (mkCore [mkWaiter 3 Reader false] (-1) 0 [1]%nat)
             (mkCore [mkWaiter 3 Reader false] (-2) 0 [1; 1]%nat) 1%nat).
    reflexivity.
Defined.

(** ** The effect of one step, field by field *)

Lemma reader_attempt_cases (me : Task) (c : _RWLockCore) :
  (wait_for Reader me c =
     (Acquired, set_owning (_owning c ++ [me]) (set_state (_state c - 1) c)) /\
   _state c < 0 /\ In me (_owning c))
  \/ (wait_for Reader me c =
        (Acquired, set_owning (_owning c ++ [me]) (set_state (_state c + 1) c)) /\
      0 <= _state c /\ (_waiting c = 0 \/ In me (_owning c)))
  \/ (wait_for Reader me c = (Parked, park Reader me c) /\
      ~ In me (_owning c) /\ (_state c < 0 \/ _waiting c <> 0)).
Proof.
  unfold wait_for. simpl.
  destruct (_acquire_read_cases me c) as [[H ->]|[[H ->]|[H ->]]]; tauto.
Qed.

Lemma writer_attempt_cases (me : Task) (c : _RWLockCore) :
  (finally_waiting (wait_for Writer me c) =
     (Acquired,
      set_waiting (_waiting c - 1)
        (set_owning (_owning c ++ [me]) (set_state (_state c - 1) c))) /\
   (_state c = 0 \/ (_state c < 0 /\ In me (_owning c))))
  \/ (finally_waiting (wait_for Writer me c) = (Parked, park Writer me c) /\
      ~ In me (_owning c) /\ _state c <> 0)
  \/ (finally_waiting (wait_for Writer me c) =
        (Raised UpgradeForbidden, set_waiting (_waiting c - 1) c) /\
      0 < _state c /\ In me (_owning c)).
Proof.
  unfold wait_for. simpl.
  destruct (_acquire_write_cases me c) as [[H ->]|[[H ->]|[H ->]]]; simpl; tauto.
Qed.

Lemma step_enabled (e : event) (o : outcome) (c c' : _RWLockCore) :
  step e c = Some (o, c') ->
  match e with
  | Resume t =>
      exists w, find_waiter t (_cond c) = Some w /\ w_notified w = true
  | Cancel t => exists w, find_waiter t (_cond c) = Some w
  | _ => ~ In (event_task e) (map w_task (_cond c))
  end.
Proof.
  intros H. destruct e as [t|t|t|t|t]; simpl in *.
  - destruct (is_parked t c) eqn:P; [discriminate|]. now apply is_parked_false.
  - destruct (is_parked t c) eqn:P; [discriminate|]. now apply is_parked_false.
  - destruct (is_parked t c) eqn:P; [discriminate|]. now apply is_parked_false.
  - destruct (find_waiter t (_cond c)) as [w|]; [|discriminate].
    destruct (w_notified w) eqn:N; [|discriminate]. now exists w.
  - destruct (find_waiter t (_cond c)) as [w|]; [|discriminate]. now exists w.
Qed.

Lemma step_effect (e : event) (o : outcome) (c c' : _RWLockCore) :
  step e c = Some (o, c') ->
  let t := event_task e in
  let q := match e with
           | Resume _ | Cancel _ => drop_waiter t (_cond c)
           | _ => _cond c
           end in
  match o with
  | Acquired =>
      exists k, event_kind e c = Some k /\
        _owning c' = _owning c ++ [t] /\ _cond c' = q /\
        _waiting c' = (match e, k with
                       | Resume _, Writer => _waiting c - 1
                       | _, _ => _waiting c
                       end) /\
        ((_state c' = _state c - 1 /\
          ((_state c = 0 /\ k = Writer) \/ (_state c < 0 /\ In t (_owning c))))
         \/ (_state c' = _state c + 1 /\ k = Reader /\ 0 <= _state c /\
             (_waiting c = 0 \/ In t (_owning c))))
  | Parked =>
      exists k, event_kind e c = Some k /\
        _owning c' = _owning c /\ _state c' = _state c /\
        _cond c' = q ++ [mkWaiter t k false] /\
        _waiting c' = (match e with
                       | AcquireExclusive _ => _waiting c + 1
                       | _ => _waiting c
                       end) /\
        ~ In t (_owning c) /\
        (match k with
         | Writer => _state c <> 0
         | Reader => _state c < 0 \/ _waiting c <> 0
         end)
  | Raised x =>
      (x = UpgradeForbidden /\ event_kind e c = Some Writer /\
       0 < _state c /\ In t (_owning c) /\
       _owning c' = _owning c /\ _state c' = _state c /\ _cond c' = q /\
       _waiting c' = (match e with
                      | Resume _ => _waiting c - 1
                      | _ => _waiting c
                      end))
      \/ (x = NotHeld /\ e = Release t /\ ~ In t (_owning c) /\ c' = c)
  | Released =>
      e = Release t /\
      exists l, list_remove t (_owning c) = Some l /\
        _owning c' = l /\ _waiting c' = _waiting c /\
        _state c' = (if 0 <? _state c then _state c - 1 else _state c + 1) /\
        _cond c' = (if _state c' =? 0 then notify_all (_cond c) else _cond c)
  | Cancelled =>
      exists w, e = Cancel t /\ find_waiter t (_cond c) = Some w /\
        _owning c' = _owning c /\ _state c' = _state c /\ _cond c' = q /\
        _waiting c' = (match w_kind w with
                       | Writer => _waiting c - 1
                       | Reader => _waiting c
                       end)
  end.
Proof.
  intros H. destruct e as [t|t|t|t|t]; simpl in *.
  - destruct (is_parked t c); [discriminate|]. injection H as H.
    unfold acquire_read in H.
    destruct (reader_attempt_cases t c) as [[E K]|[[E K]|[E K]]];
      rewrite E in H; injection H as <- <-; exists Reader; simpl;
      repeat (split; [try reflexivity; tauto|]); tauto.
  - destruct (is_parked t c); [discriminate|]. injection H as H.
    unfold acquire_write in H.
    destruct (writer_attempt_cases t (set_waiting (_waiting c + 1) c))
      as [[E K]|[[E K]|[E K]]];
      rewrite E in H; injection H as <- <-; simpl in *.
    + exists Writer. repeat (split; [try reflexivity; try lia|]). left. tauto.
    + exists Writer. repeat (split; [try reflexivity; tauto|]). tauto.
    + left. repeat (split; [try reflexivity; try tauto|]). lia.
  - destruct (is_parked t c); [discriminate|]. injection H as H.
    destruct (in_dec Nat.eq_dec t (_owning c)) as [Hin|Hout].
    + destruct (list_remove_In _ _ Hin) as [l E].
      rewrite (release_held _ _ _ E) in H. injection H as <- <-.
      split; [reflexivity|]. exists l. simpl. tauto.
    + rewrite (release_not_held _ _ Hout) in H. injection H as <- <-.
      right. tauto.
  - destruct (find_waiter t (_cond c)) as [w|] eqn:F; [|discriminate].
    destruct (w_notified w); [|discriminate]. injection H as H.
    destruct (find_waiter_Some _ _ _ F) as [_ Et].
    unfold resume in H. rewrite Et in H. destruct (w_kind w).
    + destruct (reader_attempt_cases t (set_cond (drop_waiter t (_cond c)) c))
        as [[E K]|[[E K]|[E K]]];
        rewrite E in H; injection H as <- <-; exists Reader; simpl in *;
        repeat (split; [try reflexivity; tauto|]); tauto.
    + destruct (writer_attempt_cases t (set_cond (drop_waiter t (_cond c)) c))
        as [[E K]|[[E K]|[E K]]];
        rewrite E in H; injection H as <- <-; simpl in *.
      * exists Writer. repeat (split; [try reflexivity; try lia|]). left. tauto.
      * exists Writer. repeat (split; [try reflexivity; tauto|]). tauto.
      * left. repeat (split; [try reflexivity; try tauto|]). reflexivity.
  - destruct (find_waiter t (_cond c)) as [w|] eqn:F; [|discriminate].
    injection H as H.
    destruct (find_waiter_Some _ _ _ F) as [_ Et].
    unfold cancel in H. rewrite Et in H.
    destruct (w_kind w) eqn:Kw; injection H as <- <-; exists w; simpl;
      rewrite ?Kw; tauto.
Qed.

(** ** The pending-writer counter *)

Lemma writers_app (q : list waiter) (w : waiter) :
  writers (q ++ [w]) =
  (writers q + match w_kind w with Writer => 1 | Reader => 0 end)%nat.
Proof.
  induction q as [|v q IH]; simpl.
  - destruct (w_kind w); reflexivity.
  - destruct (w_kind v); rewrite IH; reflexivity.
Qed.

Lemma writers_notify_all (q : list waiter) :
  writers (notify_all q) = writers q.
Proof.
  induction q as [|v q IH]; simpl; [reflexivity|].
  destruct (w_kind v); now rewrite IH.
Qed.

Lemma writers_drop (t : Task) (q : list waiter) (w : waiter) :
  find_waiter t q = Some w ->
  writers q =
  (writers (drop_waiter t q) + match w_kind w with Writer => 1 | Reader => 0 end)%nat.
Proof.
  induction q as [|v q IH]; simpl; [discriminate|].
  destruct (Nat.eqb (w_task v) t).
  - intros H. injection H as <-. destruct (w_kind v); lia.
  - intros H. simpl. destruct (w_kind v); rewrite (IH H); lia.
Qed.

Lemma writers_exists (q : list waiter) :
  writers q <> 0%nat -> exists w, In w q /\ w_kind w = Writer.
Proof.
  induction q as [|v q IH]; simpl; [congruence|].
  destruct (w_kind v) eqn:K.
  - intros H. destruct (IH H) as (w & Hw & Kw). exists w. tauto.
  - intros _. exists v. tauto.
Qed.

Lemma step_writers (e : event) (o : outcome) (c c' : _RWLockCore) :
  step e c = Some (o, c') ->
  _waiting c = Z.of_nat (writers (_cond c)) ->
  _waiting c' = Z.of_nat (writers (_cond c')).
Proof.
  intros H W. pose proof (step_effect e o c c' H) as S.
  pose proof (step_enabled e o c c' H) as En.
  destruct o; simpl in S.
  - destruct S as (k & Hk & _ & -> & -> & _).
    destruct e as [t|t|t|t|t]; simpl in *; try discriminate; try assumption.
    destruct En as (w & F & _). rewrite F in Hk. injection Hk as <-.
    rewrite (writers_drop _ _ _ F) in W. destruct (w_kind w); lia.
  - destruct S as (k & Hk & _ & _ & -> & -> & _). rewrite writers_app. simpl.
    destruct e as [t|t|t|t|t]; simpl in *; try discriminate.
    + injection Hk as <-. lia.
    + injection Hk as <-. lia.
    + destruct En as (w & F & _). rewrite F in Hk. injection Hk as <-.
      rewrite (writers_drop _ _ _ F) in W. destruct (w_kind w); lia.
  - destruct S as [(_ & Hk & _ & _ & _ & _ & -> & ->)|(_ & _ & _ & ->)];
      [|assumption].
    destruct e as [t|t|t|t|t]; simpl in *; try discriminate; try assumption.
    destruct En as (w & F & _). rewrite F in Hk. injection Hk as Hk.
    rewrite (writers_drop _ _ _ F) in W. rewrite Hk in W. lia.
  - destruct S as (_ & l & _ & _ & -> & _ & ->).
    destruct (_state c' =? 0); [rewrite writers_notify_all|]; assumption.
  - destruct S as (w & Ee & F & _ & _ & Eq & Ew).
    destruct e as [t|t|t|t|t]; simpl in *; try discriminate.
    rewrite Eq, Ew. rewrite (writers_drop _ _ _ F) in W.
    destruct (w_kind w); lia.
Qed.

Lemma reachable_writers (c : _RWLockCore) :
  reachable c -> _waiting c = Z.of_nat (writers (_cond c)).
Proof.
  induction 1 as [|c e o c' _ IH Hstep]; [reflexivity|].
  eapply step_writers; eassumption.
Qed.

(** X1 — pending-writer accounting: in every reachable core [_waiting] is the
    number of queued coroutines that are suspended inside [acquire_write]; in
    particular it is never negative, and it is zero when nobody is queued. *)
Theorem pending_writers_counted (c : _RWLockCore) :
  reachable c ->
  _waiting c = Z.of_nat (writers (_cond c)) /\
  0 <= _waiting c /\
  (_cond c = [] -> _waiting c = 0).
Proof.
  intros Hr. pose proof (reachable_writers c Hr) as W.
  split; [exact W|]. split; [lia|].
  intros E. rewrite W, E. reflexivity.
Qed.

Lemma pending_writers_counted_witness :
  let c := mkCore [mkWaiter 2 Writer false; mkWaiter 3 Reader false;
                   mkWaiter 4 Writer false] 1 2 [1]%nat in
  reachable c /\ _waiting c = Z.of_nat (writers (_cond c)) /\ 0 <= _waiting c.
Proof.
  assert (Hr : reachable
                 (mkCore [mkWaiter 2 Writer false; mkWaiter 3 Reader false;
                          mkWaiter 4 Writer false] 1 2 [1]%nat)).
  { apply (run_reachable
             [AcquireShared 1; AcquireExclusive 2; AcquireShared 3;
              AcquireExclusive 4] __init__);
      [apply reach_init | reflexivity]. }
  simpl. split; [exact Hr|].
  destruct (pending_writers_counted _ Hr) as (W & P & _).
  split; [exact W | exact P].
Defined.

(** ** What the two acquires return *)

(** X2 — outcomes of [acquire_read]: it never raises (although it may run
    [_acquire_write]); it returns at once exactly when the caller owns a lock
    in exclusive mode, or the counter is non-negative and either no writer is
    pending or the caller is already an owner; an owner is therefore never
    parked, and any other case parks the caller. *)
Theorem acquire_read_outcomes (c : _RWLockCore) (t : Task) :
  (forall e, fst (acquire_read t c) <> Raised e) /\
  (fst (acquire_read t c) = Acquired <->
   (_state c < 0 /\ In t (_owning c)) \/
   (0 <= _state c /\ (_waiting c = 0 \/ In t (_owning c)))) /\
  (In t (_owning c) -> fst (acquire_read t c) = Acquired) /\
  (fst (acquire_read t c) <> Acquired ->
   acquire_read t c = (Parked, park Reader t c)).
Proof.
  unfold acquire_read.
  destruct (reader_attempt_cases t c) as [[E K]|[[E K]|[E K]]]; rewrite E; simpl.
  - repeat split; try discriminate; try tauto.
  - repeat split; try discriminate; try tauto.
  - split; [discriminate|]. split; [|split].
    + split; [discriminate|]. intros [[H1 H2]|[H1 [H2|H2]]]; exfalso; try tauto; lia.
    + tauto.
    + reflexivity.
Qed.

Lemma writer_take_restores (t : Task) (c : _RWLockCore) :
  let c0 := set_waiting (_waiting c + 1) c in
  set_waiting (_waiting c0 - 1)
    (set_owning (_owning c0 ++ [t]) (set_state (_state c0 - 1) c0)) =
  set_owning (_owning c ++ [t]) (set_state (_state c - 1) c).
Proof.
  destruct c as [q s w l]. unfold set_waiting, set_owning, set_state. simpl.
  f_equal. lia.
Qed.

(** X3 — outcomes of [acquire_write]: it returns at once exactly when the lock
    is idle or the caller owns it in exclusive mode, and then only [_state]
    (one down) and [_owning] (caller appended) differ; it parks exactly when
    the lock is held and the caller is no owner, and then the caller is queued
    as a writer with [_waiting] one up; otherwise it raises (C3). *)
Theorem acquire_write_outcomes (c : _RWLockCore) (t : Task) :
  (fst (acquire_write t c) = Acquired <->
   _state c = 0 \/ (_state c < 0 /\ In t (_owning c))) /\
  (fst (acquire_write t c) = Acquired ->
   snd (acquire_write t c) =
     set_owning (_owning c ++ [t]) (set_state (_state c - 1) c)) /\
  (fst (acquire_write t c) = Parked <->
   _state c <> 0 /\ ~ In t (_owning c)) /\
  (fst (acquire_write t c) = Parked ->
   snd (acquire_write t c) =
     {| _cond := _cond c ++ [mkWaiter t Writer false]; _state := _state c;
        _waiting := _waiting c + 1; _owning := _owning c |}).
Proof.
  unfold acquire_write.
  destruct (writer_attempt_cases t (set_waiting (_waiting c + 1) c))
    as [[E K]|[[E K]|[E K]]]; rewrite E; simpl in *.
  - split; [tauto|]. split; [intros _; apply writer_take_restores|].
    split; [|discriminate]. split; [discriminate|].
    intros [H1 H2]. exfalso. tauto.
  - split; [|split; [discriminate|split; [tauto|reflexivity]]].
    split; [discriminate|]. intros [H|[H1 H2]]; exfalso; tauto.
  - split; [|split; [discriminate|split; [|discriminate]]].
    + split; [discriminate|]. intros [H|[H1 H2]]; exfalso; lia.
    + split; [discriminate|]. intros [H1 H2]. exfalso. tauto.
Qed.

(** ** Exclusion, seen from the caller *)

(** X4 — what a returned acquire guarantees: on a reachable core, when any
    acquire returns (at once or on resumption) the caller is an owner; if the
    coroutine was [acquire_write], the lock is in exclusive mode and the caller
    is its only owner; and if some other task held the lock just before, the
    coroutine was [acquire_read] joining a lock in shared mode. *)
Theorem acquired_excludes (c c' : _RWLockCore) (e : event) :
  reachable c -> step e c = Some (Acquired, c') ->
  In (event_task e) (_owning c') /\
  (event_kind e c = Some Writer ->
   _state c' < 0 /\ forall u, In u (_owning c') -> u = event_task e) /\
  (forall u, In u (_owning c) -> u <> event_task e ->
   event_kind e c = Some Reader /\ 0 < _state c /\ _state c' = _state c + 1).
Proof.
  intros Hr H.
  pose proof (reachable_Inv c Hr) as HI.
  pose proof (reachable_Inv c' (reach_step _ _ _ _ Hr H)) as HI'.
  destruct (step_effect e Acquired c c' H) as (k & Hk & Ho & _ & _ & Hs).
  assert (Hin : In (event_task e) (_owning c')).
  { rewrite Ho. apply in_or_app. right. now left. }
  split; [exact Hin|]. split.
  - intros Hw. rewrite Hw in Hk. injection Hk as <-.
    assert (Hneg : _state c' < 0).
    { destruct Hs as [(E & [[Z _]|[Z _]])|(_ & K & _)]; try discriminate; lia. }
    split; [exact Hneg|]. intros u Hu. now apply (inv_excl c' HI' Hneg).
  - intros u Hu Hne. destruct Hs as [(E & [[Z _]|[Z Ht]])|(E & K & Z & _)].
    + rewrite (owners_empty_of_idle c HI Z) in Hu. contradiction.
    + exfalso. apply Hne. now apply (inv_excl c HI Z).
    + subst k. split; [exact Hk|]. split; [|exact E].
      destruct (Z.eq_dec (_state c) 0) as [Z0|Z0]; [|lia].
      rewrite (owners_empty_of_idle c HI Z0) in Hu. contradiction.
Qed.

Lemma acquired_excludes_witness :
  let c := mkCore [mkWaiter 2 Writer true] 0 1 [] in
  let c' := mkCore [] (-1) 0 [2%nat] in
  reachable c /\ step (Resume 2) c = Some (Acquired, c') /\
  _state c' < 0 /\ forall u, In u (_owning c') -> u = 2%nat.
Proof.
  assert (Hr : reachable (mkCore [mkWaiter 2 Writer true] 0 1 [])).
  { apply (run_reachable [AcquireShared 1; AcquireExclusive 2; Release 1] __init__);
      [apply reach_init | reflexivity]. }
  simpl. split; [exact Hr|]. split; [reflexivity|].
  apply (proj1 (proj2
           (acquired_excludes _ (mkCore [] (-1) 0 [2%nat]) (Resume 2) Hr eq_refl))
           eq_refl).
Defined.

(** ** Holds, task by task *)

Lemma count_occ_list_remove (x u : Task) (l r : list Task) :
  list_remove x l = Some r ->
  count_occ Nat.eq_dec l u =
  (count_occ Nat.eq_dec r u + if Nat.eqb u x then 1 else 0)%nat.
Proof.
  intros H. destruct (list_remove_Some _ _ _ H) as (l1 & l2 & -> & _ & ->).
  rewrite !count_occ_app. simpl.
  destruct (Nat.eq_dec x u) as [->|Hne].
  - rewrite Nat.eqb_refl. lia.
  - destruct (Nat.eqb_spec u x); [congruence | lia].
Qed.

Lemma count_occ_snoc (x u : Task) (l : list Task) :
  count_occ Nat.eq_dec (l ++ [x]) u =
  (count_occ Nat.eq_dec l u + if Nat.eqb u x then 1 else 0)%nat.
Proof.
  rewrite count_occ_app. simpl.
  destruct (Nat.eq_dec x u) as [->|Hne].
  - now rewrite Nat.eqb_refl.
  - destruct (Nat.eqb_spec u x); [congruence | reflexivity].
Qed.

(** X5 — hold accounting: whatever step the system takes, the number of
    entries of a task [u] in [_owning] goes up by one when the step is an
    acquire of [u] that returned, down by one when it is a release of [u] that
    returned (which needs at least one entry), and is otherwise unchanged:
    parking, raising, cancelling and other tasks' steps never touch it. *)
Theorem hold_accounting (e : event) (o : outcome) (c c' : _RWLockCore) (u : Task) :
  step e c = Some (o, c') ->
  match o with
  | Acquired =>
      holds u c' = if Nat.eqb u (event_task e) then S (holds u c) else holds u c
  | Released =>
      holds u c = if Nat.eqb u (event_task e) then S (holds u c') else holds u c'
  | _ => holds u c' = holds u c
  end.
Proof.
  intros H. pose proof (step_effect e o c c' H) as S. unfold holds.
  destruct o; simpl in S.
  - destruct S as (k & _ & -> & _). rewrite count_occ_snoc.
    destruct (Nat.eqb u (event_task e)); lia.
  - destruct S as (k & _ & -> & _). reflexivity.
  - destruct S as [(_ & _ & _ & _ & -> & _)|(_ & _ & _ & ->)]; reflexivity.
  - destruct S as (_ & l & E & -> & _).
    rewrite (count_occ_list_remove _ u _ _ E).
    destruct (Nat.eqb u (event_task e)); lia.
  - destruct S as (w & _ & _ & -> & _). reflexivity.
Qed.

Lemma hold_accounting_witness :
  let c := mkCore [] 2 0 [1; 2]%nat in
  holds 1 (mkCore [] 3 0 [1; 2; 1]%nat) = 2%nat /\
  holds 2 (mkCore [] 3 0 [1; 2; 1]%nat) = 1%nat /\
  holds 1 c = S (holds 1 (mkCore [] 1 0 [2]%nat)).
Proof.
  simpl. split; [|split].
  - apply (hold_accounting (AcquireShared 1) Acquired (mkCore [] 2 0 [1; 2]%nat)
             (mkCore [] 3 0 [1; 2; 1]%nat) 1%nat eq_refl).
  - apply (hold_accounting (AcquireShared 1) Acquired (mkCore [] 2 0 [1; 2]%nat)
             (mkCore [] 3 0 [1; 2; 1]%nat) 2%nat eq_refl).
  - apply (hold_accounting (Release 1) Released (mkCore [] 2 0 [1; 2]%nat)
             (mkCore [] 1 0 [2]%nat) 1%nat eq_refl).
Defined.

(** X6 — no hold-and-wait: in every reachable core a task that is queued on
    the condition holds nothing, is queued exactly once, and cannot call
    [release] or a second acquire before it is resumed or cancelled; an owner
    is never in the queue. *)
Theorem parked_task_holds_nothing (c : _RWLockCore) (t : Task) :
  reachable c ->
  (is_parked t c = true ->
   holds t c = 0%nat /\
   count_occ Nat.eq_dec (map w_task (_cond c)) t = 1%nat /\
   step (Release t) c = None /\
   step (AcquireShared t) c = None /\
   step (AcquireExclusive t) c = None) /\
  (In t (_owning c) -> is_parked t c = false).
Proof.
  intros Hr. pose proof (reachable_Inv c Hr) as HI.
  assert (Hq : is_parked t c = true -> In t (map w_task (_cond c))).
  { intros P. destruct (in_dec Nat.eq_dec t (map w_task (_cond c))) as [H|H];
      [exact H|]. apply is_parked_false in H. congruence. }
  split.
  - intros P. pose proof (Hq P) as Hin. split; [|split].
    + unfold holds. apply count_occ_not_In. now apply (inv_parked c HI).
    + apply NoDup_count_occ' with (decA := Nat.eq_dec);
        [exact (inv_queue c HI) | exact Hin].
    + simpl. rewrite P. tauto.
  - intros Ho. destruct (is_parked t c) eqn:P; [|reflexivity].
    exfalso. exact (inv_parked c HI t (Hq eq_refl) Ho).
Qed.

Lemma parked_task_holds_nothing_witness :
  let c := mkCore [mkWaiter 2 Writer false] 1 1 [1]%nat in
  reachable c /\ holds 2 c = 0%nat /\ step (Release 2) c = None /\
  is_parked 1 c = false.
Proof.
  assert (Hr : reachable (mkCore [mkWaiter 2 Writer false] 1 1 [1]%nat)).
  { apply (run_reachable [AcquireShared 1; AcquireExclusive 2] __init__);
      [apply reach_init | reflexivity]. }
  simpl. split; [exact Hr|].
  destruct (parked_task_holds_nothing _ 2%nat Hr) as [P _].
  destruct (P eq_refl) as (H1 & _ & H3 & _).
  split; [exact H1|]. split; [exact H3|].
  apply (proj2 (parked_task_holds_nothing _ 1%nat Hr)). simpl. now left.
Defined.

(** X7 — the mode changes only through idle: one step moves [_state] by at
    most one, and never takes a positive counter below zero nor a negative
    one above zero; only a returned acquire or release
    moves it at all. *)
Theorem mode_changes_through_idle (e : event) (o : outcome) (c c' : _RWLockCore) :
  step e c = Some (o, c') ->
  Z.abs (_state c' - _state c) <= 1 /\
  (0 < _state c -> 0 <= _state c') /\
  (_state c < 0 -> _state c' <= 0) /\
  (o <> Acquired -> o <> Released -> _state c' = _state c).
Proof.
  intros H. pose proof (step_effect e o c c' H) as S.
  destruct o; simpl in S.
  - destruct S as (k & _ & _ & _ & _ & [(E & _)|(E & _)]);
      repeat split; try lia; congruence.
  - destruct S as (k & _ & _ & E & _). repeat split; lia.
  - destruct S as [(_ & _ & _ & _ & _ & E & _)|(_ & _ & _ & ->)];
      repeat split; lia.
  - destruct S as (_ & l & _ & _ & _ & E & _).
    destruct (Z.ltb_spec 0 (_state c)); repeat split; try lia; congruence.
  - destruct S as (w & _ & _ & _ & E & _). repeat split; lia.
Qed.

Lemma mode_changes_through_idle_witness :
  let c := mkCore [] (-1) 0 [1]%nat in
  step (Release 1) c = Some (Released, mkCore [] 0 0 []) /\
  Z.abs (0 - _state c) <= 1.
Proof.
  simpl. split; [reflexivity|].
  apply (proj1 (mode_changes_through_idle (Release 1) Released
                  (mkCore [] (-1) 0 [1]%nat) (mkCore [] 0 0 []) eq_refl)).
Defined.

(** ** Waking up on an idle lock *)

Lemma base_queue_incl (e : event) (c : _RWLockCore) (w : waiter) :
  In w (match e with
        | Resume _ | Cancel _ => drop_waiter (event_task e) (_cond c)
        | _ => _cond c
        end) ->
  In w (_cond c).
Proof.
  destruct e; simpl; try tauto; apply drop_waiter_incl.
Qed.

Lemma notify_all_notified (q : list waiter) (w : waiter) :
  In w (notify_all q) -> w_notified w = true.
Proof.
  intros H. pose proof (notify_all_Forall q) as F.
  rewrite Forall_forall in F. now apply F.
Qed.

Lemma idle_writers_notified_step (e : event) (o : outcome) (c c' : _RWLockCore) :
  step e c = Some (o, c') ->
  (_state c = 0 ->
   forall w, In w (_cond c) -> w_kind w = Writer -> w_notified w = true) ->
  _state c' = 0 ->
  forall w, In w (_cond c') -> w_kind w = Writer -> w_notified w = true.
Proof.
  intros H IH Z w Hw Kw. pose proof (step_effect e o c c' H) as S.
  destruct o; simpl in S.
  - destruct S as (k & _ & _ & _ & _ & [(E & [[Z0 _]|[Z0 _]])|(E & _ & Z0 & _)]);
      exfalso; lia.
  - destruct S as (k & _ & _ & Es & Eq & _ & _ & Hc).
    rewrite Eq in Hw. apply in_app_or in Hw. destruct Hw as [Hw|[<-|[]]].
    + apply IH; [lia | now apply base_queue_incl in Hw | exact Kw].
    + simpl in Kw. subst k. exfalso. lia.
  - destruct S as [(_ & _ & Hp & _ & _ & Es & _)|(_ & _ & _ & ->)].
    + exfalso. lia.
    + now apply IH.
  - destruct S as (_ & l & _ & _ & _ & _ & Eq).
    rewrite Z in Eq. simpl in Eq. rewrite Eq in Hw.
    now apply notify_all_notified in Hw.
  - destruct S as (v & _ & _ & _ & Es & Eq & _).
    rewrite Eq in Hw. apply IH; [lia | now apply base_queue_incl in Hw | exact Kw].
Qed.

Lemma idle_writers_notified (c : _RWLockCore) :
  reachable c -> _state c = 0 ->
  forall w, In w (_cond c) -> w_kind w = Writer -> w_notified w = true.
Proof.
  induction 1 as [|c e o c' _ IH Hstep].
  - simpl. tauto.
  - eapply idle_writers_notified_step; eassumption.
Qed.

Lemma idle_resume_writer (c : _RWLockCore) (t : Task) (w : waiter) :
  _state c = 0 -> _owning c = [] -> find_waiter t (_cond c) = Some w ->
  w_kind w = Writer -> w_notified w = true ->
  exists c', step (Resume t) c = Some (Acquired, c') /\
    _state c' = -1 /\ _owning c' = [t] /\ _waiting c' = _waiting c - 1.
Proof.
  intros Z Ho F Kw N. destruct (find_waiter_Some _ _ _ F) as [_ Et].
  simpl. rewrite F, N. unfold resume. rewrite Kw, Et.
  set (c1 := set_cond (drop_waiter t (_cond c)) c).
  destruct (writer_attempt_cases t c1) as [[E K]|[[E K]|[E K]]]; simpl in K.
  - rewrite E. eexists. split; [reflexivity|]. simpl. rewrite Ho, Z.
    repeat split.
  - exfalso. tauto.
  - exfalso. lia.
Qed.

Lemma idle_resume_reader (c : _RWLockCore) (t : Task) (w : waiter) :
  _state c = 0 -> _owning c = [] -> find_waiter t (_cond c) = Some w ->
  w_kind w = Reader -> w_notified w = true ->
  (_waiting c = 0 ->
   exists c', step (Resume t) c = Some (Acquired, c') /\
     _state c' = 1 /\ _owning c' = [t] /\ _waiting c' = 0) /\
  (_waiting c <> 0 ->
   exists c', step (Resume t) c = Some (Parked, c') /\
     _state c' = 0 /\ _owning c' = [] /\ _waiting c' = _waiting c /\
     _cond c' = drop_waiter t (_cond c) ++ [mkWaiter t Reader false]).
Proof.
  intros Z Ho F Kw N. destruct (find_waiter_Some _ _ _ F) as [_ Et].
  simpl. rewrite F, N. unfold resume. rewrite Kw, Et.
  set (c1 := set_cond (drop_waiter t (_cond c)) c).
  destruct (reader_attempt_cases t c1) as [[E K]|[[E K]|[E K]]]; simpl in K.
  - exfalso. lia.
  - rewrite E. split; intros W.
    + eexists. split; [reflexivity|]. simpl. rewrite Ho, Z, W. repeat split.
    + exfalso. rewrite Ho in K. simpl in K. tauto.
  - rewrite E. split; intros W.
    + exfalso. destruct K as [_ [K|K]]; [lia | contradiction].
    + eexists. split; [reflexivity|]. simpl. rewrite Ho, Z. repeat split.
Qed.

(** X8 — waking up on an idle lock: on a reachable idle core every queued
    writer has been notified, and resuming it takes the lock in exclusive mode
    and gives back its count in [_waiting]; a notified queued reader takes the
    lock in shared mode when no writer is pending and otherwise parks again
    with nothing changed but its place in the queue. *)
Theorem idle_wakeup (c : _RWLockCore) (t : Task) (w : waiter) :
  reachable c -> _state c = 0 -> find_waiter t (_cond c) = Some w ->
  (w_kind w = Writer ->
   w_notified w = true /\
   exists c', step (Resume t) c = Some (Acquired, c') /\
     _state c' = -1 /\ _owning c' = [t] /\ _waiting c' = _waiting c - 1) /\
  (w_kind w = Reader -> w_notified w = true -> _waiting c = 0 ->
   exists c', step (Resume t) c = Some (Acquired, c') /\
     _state c' = 1 /\ _owning c' = [t] /\ _waiting c' = 0) /\
  (w_kind w = Reader -> w_notified w = true -> _waiting c <> 0 ->
   exists c', step (Resume t) c = Some (Parked, c') /\
     _state c' = 0 /\ _owning c' = [] /\ _waiting c' = _waiting c /\
     _cond c' = drop_waiter t (_cond c) ++ [mkWaiter t Reader false]).
Proof.
  intros Hr Z F.
  pose proof (owners_empty_of_idle c (reachable_Inv c Hr) Z) as Ho.
  destruct (find_waiter_Some _ _ _ F) as [Hw _].
  split; [|split].
  - intros Kw.
    pose proof (idle_writers_notified c Hr Z w Hw Kw) as N.
    split; [exact N|]. now apply (idle_resume_writer c t w).
  - intros Kw N W.
    now apply (proj1 (idle_resume_reader c t w Z Ho F Kw N)).
  - intros Kw N W.
    now apply (proj2 (idle_resume_reader c t w Z Ho F Kw N)).
Qed.

Lemma idle_wakeup_witness :
  let c := mkCore [mkWaiter 2 Writer true; mkWaiter 1 Reader false] 0 1 [] in
  reachable c /\
  exists c', step (Resume 2) c = Some (Acquired, c') /\
    _state c' = -1 /\ _owning c' = [2%nat] /\ _waiting c' = 1 - 1.
Proof.
  assert (Hr : reachable
                 (mkCore [mkWaiter 2 Writer true; mkWaiter 1 Reader false] 0 1 [])).
  { apply (run_reachable
             [AcquireShared 1; AcquireExclusive 2; Release 1; AcquireShared 1]
             __init__);
      [apply reach_init | reflexivity]. }
  simpl. split; [exact Hr|].
  apply (proj2 (proj1 (idle_wakeup _ 2%nat (mkWaiter 2 Writer true) Hr
                         eq_refl eq_refl) eq_refl)).
Defined.

(** ** No lost wake-up *)

Lemma reachable_uncancelled_reachable (c : _RWLockCore) :
  reachable_uncancelled c -> reachable c.
Proof.
  induction 1 as [|c e o c' _ IH _ Hstep].
  - apply reach_init.
  - eapply reach_step; eassumption.
Qed.

Lemma run_reachable_uncancelled (es : list event) (c c' : _RWLockCore) :
  reachable_uncancelled c ->
  forallb (fun e => negb (is_cancel e)) es = true ->
  run es c = Some c' -> reachable_uncancelled c'.
Proof.
  revert c. induction es as [|e es IH]; simpl; intros c Hc Hes H.
  - injection H as <-. assumption.
  - apply andb_true_iff in Hes. destruct Hes as [He Hes].
    apply negb_true_iff in He.
    destruct (step e c) as [[o c1]|] eqn:E; [|discriminate].
    apply (IH c1); [|assumption|assumption].
    eapply reach_nc_step; eassumption.
Qed.

Lemma find_waiter_NoDup (q : list waiter) (v : waiter) :
  NoDup (map w_task q) -> In v q -> find_waiter (w_task v) q = Some v.
Proof.
  induction q as [|w q IH]; simpl; [tauto|].
  intros Hnd [->|Hin].
  - now rewrite Nat.eqb_refl.
  - inversion Hnd as [|? ? Hout Hnd']; subst.
    destruct (Nat.eqb_spec (w_task w) (w_task v)) as [E|_].
    + exfalso. apply Hout. rewrite E. now apply in_map.
    + now apply IH.
Qed.

Lemma idle_unnotified_step (e : event) (o : outcome) (c c' : _RWLockCore) :
  is_cancel e = false -> step e c = Some (o, c') ->
  (_state c = 0 ->
   (forall w, In w (_cond c) -> w_notified w = true) \/ _waiting c <> 0) ->
  _state c' = 0 ->
  (forall w, In w (_cond c') -> w_notified w = true) \/ _waiting c' <> 0.
Proof.
  intros Hnc H IH Z. pose proof (step_effect e o c c' H) as S.
  destruct o; simpl in S.
  - destruct S as (k & _ & _ & _ & _ & [(E & [[Z0 _]|[Z0 _]])|(E & _ & Z0 & _)]);
      exfalso; lia.
  - destruct S as (k & Hk & _ & Es & _ & Ew & _ & Hc). right.
    destruct k; [|exfalso; lia].
    destruct e; simpl in Hk; try discriminate; rewrite Ew; lia.
  - destruct S as [(_ & _ & Hp & _ & _ & Es & _)|(_ & _ & _ & ->)].
    + exfalso. lia.
    + now apply IH.
  - destruct S as (_ & l & _ & _ & _ & _ & Eq). left.
    rewrite Z in Eq. simpl in Eq. rewrite Eq. apply notify_all_notified.
  - destruct S as (v & Ee & _). rewrite Ee in Hnc. discriminate.
Qed.

(** X9 — no lost wake-up: as long as no parked coroutine is cancelled, an idle
    lock never strands a waiter: if some queued coroutine has not been
    notified, a notified writer is queued as well; and whenever the queue of
    an idle lock is not empty, some queued task can be resumed and its
    resumption takes the lock. *)
Theorem no_lost_wakeup (c : _RWLockCore) :
  reachable_uncancelled c -> _state c = 0 ->
  (forall w, In w (_cond c) -> w_notified w = false ->
   exists v, In v (_cond c) /\ w_kind v = Writer /\ w_notified v = true) /\
  (_cond c <> [] ->
   exists t c', step (Resume t) c = Some (Acquired, c')).
Proof.
  intros Hnc Z.
  pose proof (reachable_uncancelled_reachable c Hnc) as Hr.
  pose proof (reachable_Inv c Hr) as HI.
  pose proof (owners_empty_of_idle c HI Z) as Ho.
  pose proof (reachable_writers c Hr) as W.
  assert (P : (forall w, In w (_cond c) -> w_notified w = true) \/ _waiting c <> 0).
  { clear Hr HI W Ho. revert Z.
    induction Hnc as [|c e o c' _ IH Hc Hstep].
    - intros _. left. simpl. tauto.
    - eapply idle_unnotified_step; eassumption. }
  assert (Hwr : _waiting c <> 0 ->
                exists v, In v (_cond c) /\ w_kind v = Writer /\ w_notified v = true).
  { intros Hw. destruct (writers_exists (_cond c)) as (v & Hv & Kv); [lia|].
    exists v. split; [exact Hv|]. split; [exact Kv|].
    now apply (idle_writers_notified c Hr Z). }
  split.
  - intros w Hw N. destruct P as [P|P]; [|now apply Hwr].
    rewrite (P w Hw) in N. discriminate.
  - intros Hq. destruct (Z.eq_dec (_waiting c) 0) as [W0|W0].
    + destruct (_cond c) as [|w q] eqn:Eq; [congruence|].
      assert (Hin : In w (_cond c)) by (rewrite Eq; now left).
      assert (F : find_waiter (w_task w) (_cond c) = Some w)
        by (apply find_waiter_NoDup; [exact (inv_queue c HI) | exact Hin]).
      assert (N : w_notified w = true).
      { destruct P as [P|P]; [|contradiction]. apply P. now left. }
      destruct (w_kind w) eqn:K.
      * destruct (proj1 (idle_resume_reader c (w_task w) w Z Ho F K N) W0)
          as (c' & Hs & _).
        now exists (w_task w), c'.
      * destruct (idle_resume_writer c (w_task w) w Z Ho F K N)
          as (c' & Hs & _).
        now exists (w_task w), c'.
    + destruct (Hwr W0) as (v & Hv & Kv & Nv).
      assert (F : find_waiter (w_task v) (_cond c) = Some v)
        by (apply find_waiter_NoDup; [exact (inv_queue c HI) | exact Hv]).
      destruct (idle_resume_writer c (w_task v) v Z Ho F Kv Nv)
        as (c' & Hs & _).
      now exists (w_task v), c'.
Qed.

Lemma no_lost_wakeup_witness :
  let c := mkCore [mkWaiter 2 Writer true; mkWaiter 1 Reader false] 0 1 [] in
  reachable_uncancelled c /\ _state c = 0 /\
  exists t c', step (Resume t) c = Some (Acquired, c').
Proof.
  assert (Hr : reachable_uncancelled
                 (mkCore [mkWaiter 2 Writer true; mkWaiter 1 Reader false] 0 1 [])).
  { apply (run_reachable_uncancelled
             [AcquireShared 1; AcquireExclusive 2; Release 1; AcquireShared 1]
             __init__);
      [apply reach_nc_init | reflexivity | reflexivity]. }
  simpl. split; [exact Hr|]. split; [reflexivity|].
  apply (proj2 (no_lost_wakeup _ Hr eq_refl)). discriminate.
Defined.

(** ** The handles' flags and rendered forms *)

(** X10 — the [_locked] flags follow returns, not holds: an acquire through a
    handle sets that handle's flag exactly when it returns (at once or after
    a resumption) and a release clears it exactly when it returns; a parked
    or raising call changes no flag, and no call changes the other handle's
    flag.  A returned release leaves the caller one hold fewer, so the flag is
    cleared even while the caller keeps further holds. *)
Theorem locked_flag_follows_returns (rw : RWLock) (h : handle) (t : Task) (w : waiter) :
  let a := handle_acquire h t rw in
  let r := handle_release h t rw in
  let s := handle_resume w rw in
  (locked h (snd a) = match fst a with Acquired => true | _ => locked h rw end /\
   locked (other h) (snd a) = locked (other h) rw) /\
  (locked h (snd r) = match fst r with Released => false | _ => locked h rw end /\
   locked (other h) (snd r) = locked (other h) rw /\
   (fst r = Released -> holds t (core rw) = S (holds t (core (snd r))))) /\
  (locked (handle_of (w_kind w)) (snd s) =
     match fst s with
     | Acquired => true
     | _ => locked (handle_of (w_kind w)) rw
     end /\
   locked (other (handle_of (w_kind w))) (snd s) =
     locked (other (handle_of (w_kind w))) rw).
Proof.
  simpl. split; [|split].
  - unfold handle_acquire. destruct (core_acquire h t (core rw)) as [o c'].
    destruct o, h; simpl; split; reflexivity.
  - split; [|split].
    + unfold handle_release. destruct (release t (core rw)) as [o c'].
      destruct o, h; simpl; reflexivity.
    + unfold handle_release. destruct (release t (core rw)) as [o c'].
      destruct o, h; simpl; reflexivity.
    + destruct (handle_release_core h t rw) as [Eo Ec]. rewrite Eo, Ec.
      intros Hrel. unfold holds.
      destruct (in_dec Nat.eq_dec t (_owning (core rw))) as [Hin|Hout].
      * destruct (list_remove_In _ _ Hin) as [l E].
        rewrite (release_held _ _ _ E). simpl.
        rewrite (count_occ_list_remove _ t _ _ E), Nat.eqb_refl. lia.
      * rewrite (release_not_held _ _ Hout) in Hrel. discriminate.
  - unfold handle_resume. destruct (resume w (core rw)) as [o c'].
    destruct o, (w_kind w); simpl; split; reflexivity.
Qed.

Lemma locked_flag_follows_returns_witness :
  let rw := mkRWLock (mkCore [] 2 0 [1; 1]%nat) true false in
  let rw' := snd (handle_release reader_lock 1 rw) in
  locked reader_lock rw' = false /\ holds 1 (core rw') = 1%nat /\
  locked reader_lock (snd (handle_release writer_lock 1 rw')) = false.
Proof.
  simpl.
  pose proof (locked_flag_follows_returns
                (mkRWLock (mkCore [] 2 0 [1; 1]%nat) true false)
                reader_lock 1%nat (mkWaiter 1 Reader true)) as L.
  simpl in L. destruct L as (_ & (L1 & _ & L3) & _).
  split; [exact L1|]. split.
  - specialize (L3 eq_refl). unfold holds in *. simpl in *. lia.
  - reflexivity.
Defined.

(** X11 — the rendered form shows the two flags and nothing else: two
    composites render alike exactly when their reader flags agree and their
    writer flags agree, whatever their cores hold; and a reader handle never
    renders like a writer handle. *)
Theorem repr_shows_flags (rw1 rw2 : RWLock) :
  (RWLock_repr rw1 = RWLock_repr rw2 <->
   reader_locked rw1 = reader_locked rw2 /\
   writer_locked rw1 = writer_locked rw2) /\
  (forall a b, ReaderLock_repr a <> WriterLock_repr b).
Proof.
  split.
  - unfold RWLock_repr.
    destruct (reader_locked rw1), (reader_locked rw2),
             (writer_locked rw1), (writer_locked rw2); simpl;
      split; try (intros [? ?]; discriminate); try discriminate;
      try (intros _; split; reflexivity); try reflexivity.
  - intros [] []; discriminate.
Qed.

(** ** Cancelling a parked acquire; releasing the last hold *)

Lemma find_waiter_appended (t : Task) (q : list waiter) (w : waiter) :
  ~ In t (map w_task q) -> w_task w = t ->
  find_waiter t (q ++ [w]) = Some w /\ drop_waiter t (q ++ [w]) = q.
Proof.
  intros Hout Et. induction q as [|v q IH]; simpl.
  - rewrite Et, Nat.eqb_refl. tauto.
  - simpl in Hout. destruct (Nat.eqb_spec (w_task v) t) as [E|Hne].
    + exfalso. tauto.
    + destruct IH as [IH1 IH2]; [tauto|]. rewrite IH1, IH2. tauto.
Qed.

Lemma set_fields_id (c : _RWLockCore) :
  {| _cond := _cond c; _state := _state c; _waiting := _waiting c;
     _owning := _owning c |} = c.
Proof. destruct c. reflexivity. Qed.

(** X12 — a cancelled wait leaves no trace: if an acquire of either mode parks
    its caller, cancelling that caller before it is resumed gives back the
    core exactly as it was before the call: same queue, same counters (the
    writer's [_waiting] is taken back by the [finally]), same owners. *)
Theorem cancel_undoes_park (e : event) (t : Task) (c c1 : _RWLockCore) :
  e = AcquireShared t \/ e = AcquireExclusive t ->
  step e c = Some (Parked, c1) ->
  step (Cancel t) c1 = Some (Cancelled, c).
Proof.
  intros He H.
  pose proof (step_enabled e Parked c c1 H) as En.
  destruct (step_effect e Parked c c1 H) as (k & Hk & Eo & Es & Eq & Ew & _).
  destruct He as [-> | ->]; simpl in *; injection Hk as <-.
  - destruct (find_waiter_appended t (_cond c) (mkWaiter t Reader false)
                En eq_refl) as [F D].
    rewrite Eq, F. unfold cancel. simpl. rewrite Eq, D. do 2 f_equal.
    rewrite <- (set_fields_id c) at 2. unfold set_cond. simpl.
    f_equal; assumption.
  - destruct (find_waiter_appended t (_cond c) (mkWaiter t Writer false)
                En eq_refl) as [F D].
    rewrite Eq, F. unfold cancel. simpl. rewrite Eq, D. do 2 f_equal.
    rewrite <- (set_fields_id c) at 2. unfold set_cond, set_waiting. simpl.
    f_equal; try assumption. lia.
Qed.

Lemma cancel_undoes_park_witness :
  let c := mkCore [mkWaiter 3 Reader false] 2 0 [1; 2]%nat in
  step (AcquireExclusive 4) c =
    Some (Parked, mkCore [mkWaiter 3 Reader false; mkWaiter 4 Writer false]
                    2 1 [1; 2]%nat) /\
  step (Cancel 4)
    (mkCore [mkWaiter 3 Reader false; mkWaiter 4 Writer false] 2 1 [1; 2]%nat)
  = Some (Cancelled, c).
Proof.
  simpl. split; [reflexivity|].
  apply (cancel_undoes_park (AcquireExclusive 4) 4%nat
           (mkCore [mkWaiter 3 Reader false] 2 0 [1; 2]%nat)
           (mkCore [mkWaiter 3 Reader false; mkWaiter 4 Writer false]
              2 1 [1; 2]%nat)).
  - right. reflexivity.
  - reflexivity.
Defined.

(** X13 — the broadcast comes with the last hold: on a reachable core a
    release by an owner lands on [_state = 0] exactly when the caller's entry
    was the only one in [_owning], that is exactly when no owner is left
    afterwards; every other returned release leaves the lock held. *)
Theorem release_last_hold (c : _RWLockCore) (t : Task) :
  reachable c -> In t (_owning c) ->
  let c' := snd (release t c) in
  (_state c' = 0 <-> _owning c = [t]) /\
  (_state c' = 0 <-> _owning c' = []) /\
  (_state c' <> 0 -> _cond c' = _cond c /\ exists u, In u (_owning c')).
Proof.
  intros Hr Hin. simpl.
  assert (Hstep : reachable (snd (release t c))).
  { destruct (is_parked t c) eqn:P.
    - exfalso. apply (inv_parked c (reachable_Inv c Hr) t); [|exact Hin].
      destruct (in_dec Nat.eq_dec t (map w_task (_cond c))) as [K|K]; [exact K|].
      apply is_parked_false in K. congruence.
    - apply (reach_step c (Release t) (fst (release t c))); [exact Hr|].
      simpl. rewrite P. now destruct (release t c). }
  pose proof (reachable_Inv _ Hstep) as HI'.
  pose proof (inv_count _ HI') as Hc'.
  destruct (list_remove_In _ _ Hin) as [l E].
  rewrite (release_held _ _ _ E) in *. simpl in *.
  set (z := if 0 <? _state c then _state c - 1 else _state c + 1) in *.
  destruct (list_remove_Some _ _ _ E) as (l1 & l2 & E1 & Hl1 & E2).
  assert (Hl : z = 0 <-> l = []).
  { split; intros H.
    - rewrite H in Hc'. destruct l; [reflexivity | simpl in Hc'; lia].
    - rewrite H in Hc'. simpl in Hc'. lia. }
  split; [|split].
  - rewrite Hl. split; intros H.
    + subst l. destruct l1; [|discriminate]. destruct l2; [|discriminate].
      exact E1.
    + rewrite H in E. simpl in E. rewrite Nat.eqb_refl in E. congruence.
  - exact Hl.
  - intros Hz. destruct (Z.eqb_spec z 0) as [K|K]; [contradiction|].
    split; [reflexivity|]. destruct l as [|u l']; [tauto|].
    exists u. now left.
Qed.

Lemma release_last_hold_witness :
  let c := mkCore [mkWaiter 2 Writer false] 1 1 [1]%nat in
  reachable c /\ _state (snd (release 1 c)) = 0 /\
  _owning (snd (release 1 c)) = [].
Proof.
  assert (Hr : reachable (mkCore [mkWaiter 2 Writer false] 1 1 [1]%nat)).
  { apply (run_reachable [AcquireShared 1; AcquireExclusive 2] __init__);
      [apply reach_init | reflexivity]. }
  simpl. split; [exact Hr|].
  destruct (release_last_hold _ 1%nat Hr ltac:(simpl; tauto)) as (H1 & H2 & _).
  simpl in H1, H2. split.
  - apply H1. reflexivity.
  - apply H2, H1. reflexivity.
Defined.
